(** * Secret-share reconstruction: decoding, selection, interpolation

    A shallow embedding of the reconstruction script (the console
    program and the browser script carry the same five functions):
    [convertToDecimal], [parseJsonInput], [selectShares],
    [reconstructPolynomial], [findConstantTerm] and the formatting
    loop of [main] / [reconstruct].

    JavaScript values are modelled as follows.
    - Strings are sequences of code units; only the code units
      U+0000..U+00FF are represented ([ascii]).
    - A Number produced by [parseInt] is [NaN], an infinity, or an
      integer-valued binary64; the two zeros are identified.  The
      rounding of a mathematical integer to binary64 is [to_double].
    - An object is an association list in enumeration order: integer
      index keys ascending first, then the other keys in creation order.
    - A thrown exception is the [Throw] case of [completion].
    - The interpolation is carried out on exact rationals: the rounding
      of the binary64 operations of the linear solve is not modelled,
      and no statement is made about floating-point tolerances. *)

From Stdlib Require Import ZArith QArith Lia List Bool Ascii String DecimalString.
From Stdlib Require Import Qabs Qpower Lqa Sorting.Permutation Sorting.Sorted.
Import ListNotations.

Set Warnings "-register-all".
Local Open Scope string_scope.
Local Open Scope Z_scope.

(* ================================================================= *)
(** ** Numbers *)

Inductive number : Type :=
  | NaN
  | Infinity (negative : bool)
  | Fin (z : Z).

Definition number_eqb (a b : number) : bool :=
  match a, b with
  | NaN, NaN => true
  | Infinity s, Infinity t => Bool.eqb s t
  | Fin x, Fin y => x =? y
  | _, _ => false
  end.

(** F(z): the binary64 value nearest to the integer [z], ties to the
    even significand; magnitudes that round to 2^1024 overflow. *)
Definition to_double (z : Z) : number :=
  let a := Z.abs z in
  if a <? 2 ^ 53 then Fin z
  else
    let e := Z.log2 a - 52 in
    let q := a / 2 ^ e in
    let r := a mod 2 ^ e in
    let half := 2 ^ (e - 1) in
    let m := if r <? half then q
             else if half <? r then q + 1
             else if Z.even q then q else q + 1 in
    let v := m * 2 ^ e in
    if 2 ^ 1024 <=? v then Infinity (z <? 0) else Fin (Z.sgn z * v).

(** ToInt32 on the numbers of the model. *)
Definition ToInt32 (x : number) : Z :=
  match x with
  | Fin z => let m := z mod 2 ^ 32 in if 2 ^ 31 <=? m then m - 2 ^ 32 else m
  | _ => 0
  end.

(* ================================================================= *)
(** ** Strings and digits *)

Definition code (c : ascii) : Z := Z.of_nat (nat_of_ascii c).

(** WhiteSpace and LineTerminator code units below U+0100. *)
Definition is_white_space (c : ascii) : bool :=
  let n := code c in
  ((9 <=? n) && (n <=? 13)) || (n =? 32) || (n =? 160).

(** The value of a code unit as a digit: 0-9, then a-z and A-Z as 10-35. *)
Definition digit_value (c : ascii) : option Z :=
  let n := code c in
  if (48 <=? n) && (n <=? 57) then Some (n - 48)
  else if (97 <=? n) && (n <=? 122) then Some (n - 87)
  else if (65 <=? n) && (n <=? 90) then Some (n - 55)
  else None.

Definition is_radix_digit (R : Z) (c : ascii) : bool :=
  match digit_value c with
  | Some d => d <? R
  | None => false
  end.

Fixpoint trim_start (s : list ascii) : list ascii :=
  match s with
  | c :: s' => if is_white_space c then trim_start s' else s
  | [] => []
  end.

(** The longest prefix of radix-[R] digits. *)
Fixpoint digit_prefix (R : Z) (s : list ascii) : list ascii :=
  match s with
  | c :: s' => if is_radix_digit R c then c :: digit_prefix R s' else []
  | [] => []
  end.

(** The integer denoted by a digit string, most significant digit first. *)
Definition radix_value (R : Z) (ds : list ascii) : Z :=
  fold_left (fun acc c => acc * R + match digit_value c with
                                    | Some d => d
                                    | None => 0
                                    end) ds 0.

Definition is_sign (c : ascii) : bool :=
  (code c =? 43) || (code c =? 45).

Definition is_hex_prefix (s : list ascii) : bool :=
  match s with
  | c0 :: c1 :: _ => (code c0 =? 48) && ((code c1 =? 120) || (code c1 =? 88))
  | _ => false
  end.

(** The built-in [parseInt(string, radix)] on a string argument.  The
    digits are taken for their mathematical integer, rounded once by
    [to_double].  That is what the code does in base 10 and in the
    bases that are powers of two, at every length, and in every base
    as long as the integer is below 2^53.  In the other bases the
    language lets an implementation approximate, and engines
    accumulate the digits in binary64: from 2^53 on their result can
    differ from the one given here, and no statement below is made
    there (see [rounds_exactly]). *)
Definition parseInt (inputString : string) (radix : number) : number :=
  let S0 := trim_start (list_ascii_of_string inputString) in
  let sign := match S0 with
              | c :: _ => if code c =? 45 then -1 else 1
              | [] => 1
              end in
  let S1 := match S0 with
            | c :: rest => if is_sign c then rest else S0
            | [] => S0
            end in
  let R := ToInt32 radix in
  if negb (R =? 0) && ((R <? 2) || (36 <? R)) then NaN
  else
    let stripPrefix := (R =? 0) || (R =? 16) in
    let R1 := if R =? 0 then 10 else R in
    let hex := stripPrefix && is_hex_prefix S1 in
    let S2 := if hex then skipn 2 S1 else S1 in
    let R2 := if hex then 16 else R1 in
    let Zs := digit_prefix R2 S2 in
    match Zs with
    | [] => NaN
    | _ => to_double (sign * radix_value R2 Zs)
    end.

(** [convertToDecimal(valueStr, base)]. *)
Definition convertToDecimal (valueStr : string) (base : number) : number :=
  parseInt valueStr base.

(* ================================================================= *)
(** ** Completions *)

Inductive error : Type := SyntaxError | TypeError.

Inductive completion (A : Type) : Type :=
  | Return (a : A)
  | Throw (e : error).
Arguments Return {A} a.
Arguments Throw {A} e.

Definition bind {A B : Type} (c : completion A) (f : A -> completion B)
  : completion B :=
  match c with
  | Return a => f a
  | Throw e => Throw e
  end.

Notation "x <- c ;; k" := (bind c (fun x => k))
  (at level 61, c at next level, right associativity).

(* ================================================================= *)
(** ** Parsed documents *)

(** The result of [JSON.parse]; numbers are integer-valued. *)
Inductive json : Type :=
  | JNull
  | JBool (b : bool)
  | JNumber (z : Z)
  | JString (s : string)
  | JArray (items : list json)
  | JObject (members : list (string * json)).

(** What a property read can yield: [Builtin] stands for a function
    inherited from a prototype ([Array.prototype.keys]). *)
Inductive value : Type :=
  | Undefined
  | Builtin
  | Json (j : json).

Definition string_of_Z (z : Z) : string :=
  NilEmpty.string_of_int (Z.to_int z).

Definition string_of_nat (n : nat) : string :=
  NilEmpty.string_of_uint (Nat.to_uint n).

Fixpoint join (sep : string) (l : list string) : string :=
  match l with
  | [] => EmptyString
  | [s] => s
  | s :: l' => s ++ sep ++ join sep l'
  end.

(** ToString on parsed values.  Numbers are printed in decimal
    notation, which is what the language prints for the integers up to
    2^53; a larger [JNumber] is outside the model (the language prints
    the shortest digits that read back, in exponent notation from
    10^21 on). *)
Fixpoint json_to_string (j : json) : string :=
  match j with
  | JNull => "null"
  | JBool true => "true"
  | JBool false => "false"
  | JNumber z => string_of_Z z
  | JString s => s
  | JArray items =>
      join "," (map (fun i => match i with
                              | JNull => EmptyString
                              | _ => json_to_string i
                              end) items)
  | JObject _ => "[object Object]"
  end.

Definition ToString (v : value) : string :=
  match v with
  | Undefined => "undefined"
  | Builtin => "function keys() { [native code] }"
  | Json j => json_to_string j
  end.

Fixpoint assoc (name : string) (ms : list (string * json)) : option json :=
  match ms with
  | [] => None
  | (k, j) :: ms' => if String.eqb name k then Some j else assoc name ms'
  end.

(** Reading one of the property names the program mentions
    ("keys", "n", "k", "base", "value") from a parsed value other
    than [null]. *)
Definition member_of (j : json) (name : string) : value :=
  match j with
  | JObject ms =>
      match assoc name ms with
      | Some m => Json m
      | None => Undefined
      end
  | JArray _ => if String.eqb name "keys" then Builtin else Undefined
  | _ => Undefined
  end.

(** The same read on any value: [undefined] and [null] have no
    properties, and reading one throws. *)
Definition Get (v : value) (name : string) : completion value :=
  match v with
  | Undefined | Json JNull => Throw TypeError
  | Builtin => Return Undefined
  | Json j => Return (member_of j name)
  end.

Fixpoint indexed_from (i : nat) (items : list json) : list (string * json) :=
  match items with
  | [] => []
  | j :: items' => (string_of_nat i, j) :: indexed_from (S i) items'
  end.

(** The pairs [(key, data[key])] that [for (const key in data)] visits. *)
Definition for_in (data : json) : list (string * json) :=
  match data with
  | JObject ms => ms
  | JArray items => indexed_from 0 items
  | _ => []
  end.

(* ================================================================= *)
(** ** Objects keyed by numbers *)

(** Property keys of [shares] and [selected]: the string of a number,
    or the string "undefined". *)
Inductive key : Type :=
  | KNumber (x : number)
  | KUndefined.

Definition key_eqb (a b : key) : bool :=
  match a, b with
  | KNumber x, KNumber y => number_eqb x y
  | KUndefined, KUndefined => true
  | _, _ => false
  end.

(** A stored [None] is the value [undefined]. *)
Definition object : Type := list (key * option number).

Definition is_array_index (k : key) : bool :=
  match k with
  | KNumber (Fin z) => (0 <=? z) && (z <? 2 ^ 32 - 1)
  | _ => false
  end.

Definition index_of (k : key) : Z :=
  match k with
  | KNumber (Fin z) => z
  | _ => 0
  end.

(** [obj[k]]. *)
Fixpoint obj_get (o : object) (k : key) : option number :=
  match o with
  | [] => None
  | (k', v) :: o' => if key_eqb k k' then v else obj_get o' k
  end.

Definition has_key (o : object) (k : key) : bool :=
  existsb (fun e => key_eqb k (fst e)) o.

Fixpoint obj_replace (k : key) (v : option number) (o : object) : object :=
  match o with
  | [] => []
  | (k', v') :: o' =>
      if key_eqb k k' then (k', v) :: o' else (k', v') :: obj_replace k v o'
  end.

(** Creation of a property: an integer index goes to its place among
    the integer indices, any other key to the end. *)
Fixpoint obj_create (k : key) (v : option number) (o : object) : object :=
  match o with
  | [] => [(k, v)]
  | (k', v') :: o' =>
      if is_array_index k
         && (negb (is_array_index k') || (index_of k <? index_of k'))
      then (k, v) :: (k', v') :: o'
      else (k', v') :: obj_create k v o'
  end.

(** [obj[k] = v]. *)
Definition obj_set (k : key) (v : option number) (o : object) : object :=
  if has_key o k then obj_replace k v o else obj_create k v o.

(** [Object.keys(obj)] and [Object.entries(obj)]. *)
Definition Object_keys (o : object) : list key := map fst o.
Definition Object_entries (o : object) : list (key * option number) := o.

(** [Number(s)] on a property key and on a stored value. *)
Definition Number_of_key (k : key) : number :=
  match k with
  | KNumber x => x
  | KUndefined => NaN
  end.

Definition Number_of_stored (v : option number) : number :=
  match v with
  | Some y => y
  | None => NaN
  end.

(* ================================================================= *)
(** ** parseJsonInput *)

Record parsed : Type := mkParsed {
  n_of : value;
  k_of : value;
  shares_of : object
}.

(** One iteration of the loop over the document's keys. *)
Definition parse_step (shares : object) (entry : string * json)
  : completion object :=
  let '(key, member) := entry in
  if String.eqb key "keys" then Return shares
  else
    let x := parseInt key (Fin 10) in
    b <- Get (Json member) "base" ;;
    let base := parseInt (ToString b) (Fin 10) in
    v <- Get (Json member) "value" ;;
    let y := convertToDecimal (ToString v) base in
    Return (obj_set (KNumber x) (Some y) shares).

Fixpoint parse_loop (entries : list (string * json)) (shares : object)
  : completion object :=
  match entries with
  | [] => Return shares
  | e :: entries' =>
      shares' <- parse_step shares e ;;
      parse_loop entries' shares'
  end.

(** [parseJsonInput(jsonInput)].  [JSON.parse] is a built-in: the
    input text is given by what [JSON.parse] makes of it, [None] when
    the text is not JSON and the call throws. *)
Definition parseJsonInput (jsonInput : option json) : completion parsed :=
  match jsonInput with
  | None => Throw SyntaxError
  | Some data =>
      keys <- Get (Json data) "keys" ;;
      n <- Get keys "n" ;;
      k <- Get keys "k" ;;
      shares <- parse_loop (for_in data) [] ;;
      Return (mkParsed n k shares)
  end.

(* ================================================================= *)
(** ** selectShares *)

(** [a - b] on numbers. *)
Definition number_sub (a b : number) : number :=
  match a, b with
  | NaN, _ | _, NaN => NaN
  | Infinity s, Infinity t => if Bool.eqb s t then NaN else Infinity s
  | Infinity s, Fin _ => Infinity s
  | Fin _, Infinity t => Infinity (negb t)
  | Fin x, Fin y => to_double (x - y)
  end.

Definition is_positive (v : number) : bool :=
  match v with
  | NaN => false
  | Infinity s => negb s
  | Fin z => 0 <? z
  end.

Section Sort.
Variable comparefn : number -> number -> number.

(** [x] stood before every element of [l]: it passes the elements
    that the comparison puts strictly before it, and no other. *)
Fixpoint sort_insert (x : number) (l : list number) : list number :=
  match l with
  | [] => [x]
  | y :: l' =>
      if is_positive (comparefn x y) then y :: sort_insert x l'
      else x :: y :: l'
  end.

(** [Array.prototype.sort(comparefn)], a stable sort. *)
Fixpoint Array_sort (l : list number) : list number :=
  match l with
  | [] => []
  | x :: l' => sort_insert x (Array_sort l')
  end.
End Sort.

(** The key of [sortedKeys[i]] as a property key. *)
Definition property_key (e : option number) : key :=
  match e with
  | Some x => KNumber x
  | None => KUndefined
  end.

(** [count] iterations of the loop body, from index [i]. *)
Fixpoint select_loop (count i : nat) (sortedKeys : list number)
  (shares selected : object) : object :=
  match count with
  | O => selected
  | S count' =>
      let key := property_key (nth_error sortedKeys i) in
      select_loop count' (S i) sortedKeys shares
        (obj_set key (obj_get shares key) selected)
  end.

(** [selectShares(shares, k)] for an integer threshold [k]. *)
Definition selectShares (shares : object) (k : Z) : object :=
  let sortedKeys :=
    Array_sort (fun a b => number_sub a b)
      (map Number_of_key (Object_keys shares)) in
  select_loop (Z.to_nat k) 0 sortedKeys shares [].

(* ================================================================= *)
(** ** reconstructPolynomial

    The arithmetic of the interpolation is carried out on exact
    rationals: the rounding of binary64 operations is not modelled, so
    that the coefficients given here are those of exact arithmetic,
    which the code approximates in binary64. *)

Definition exact (x : number) : option Q :=
  match x with
  | Fin z => Some (inject_Z z)
  | _ => None
  end.

Fixpoint all_exact (l : list number) : option (list Q) :=
  match l with
  | [] => Some []
  | x :: l' =>
      match exact x, all_exact l' with
      | Some q, Some qs => Some (q :: qs)
      | _, _ => None
      end
  end.

(** [Math.pow(x, i)] for a natural exponent. *)
Definition Math_pow (x : Q) (i : nat) : Q := Qred (Qpower x (Z.of_nat i)).

(** The row built by [for (let i = len - 1; i >= 0; i--)]. *)
Fixpoint vandermonde_row (x : Q) (len : nat) : list Q :=
  match len with
  | O => []
  | S i => Math_pow x i :: vandermonde_row x i
  end.

Definition equation : Type := (list Q * Q)%type.

Definition lead (r : equation) : Q := hd 0%Q (fst r).

(** The first equation with the largest leading magnitude, and the rest. *)
Fixpoint pivot_split (rows : list equation)
  : option (equation * list equation) :=
  match rows with
  | [] => None
  | r :: rows' =>
      match pivot_split rows' with
      | None => Some (r, [])
      | Some (p, others) =>
          if Qle_bool (Qabs (lead p)) (Qabs (lead r))
          then Some (r, p :: others)
          else Some (p, r :: others)
      end
  end.

Fixpoint dot (u v : list Q) : Q :=
  match u, v with
  | a :: u', b :: v' => (a * b + dot u' v')%Q
  | _, _ => 0%Q
  end.

Fixpoint axpy (f : Q) (u v : list Q) : list Q :=
  match u, v with
  | a :: u', b :: v' => Qred (a - f * b) :: axpy f u' v'
  | _, _ => []
  end.

(** Removes the leading unknown of [r] with the pivot equation [p]. *)
Definition eliminate (p r : equation) : equation :=
  let f := (lead r / lead p)%Q in
  (axpy f (tl (fst r)) (tl (fst p)), Qred (snd r - f * snd p)).

Fixpoint solve (unknowns : nat) (rows : list equation) : option (list Q) :=
  match unknowns with
  | O => Some []
  | S unknowns' =>
      match pivot_split rows with
      | None => None
      | Some (p, others) =>
          if Qeq_bool (lead p) 0 then None
          else
            match solve unknowns' (map (eliminate p) others) with
            | None => None
            | Some xs =>
                Some (Qred ((snd p - dot (tl (fst p)) xs) / lead p) :: xs)
            end
      end
  end.

(** Modelled from the spec: [math.lusolve] belongs to the mathjs
    package, which is not part of the sources.  The spec describes the
    step as: solve the linear system [A * coeffs = y] for [coeffs],
    failing when the matrix is singular.  The model is elimination with
    partial pivoting and back substitution; the answer is a column,
    one single-entry row per unknown; [None] is the thrown error. *)
Definition lusolve (A : list (list Q)) (b : list Q) : option (list (list Q)) :=
  match solve (List.length A) (combine A b) with
  | Some xs => Some (map (fun c => [c]) xs)
  | None => None
  end.

Inductive reconstruction : Type :=
  | Coefficients (coeffs : list Q)
  | Singular
  | NotFinite.

(** [reconstructPolynomial(selectedShares)].  [NotFinite] marks the
    inputs that are outside the model: a coordinate is [NaN] or
    infinite and has no rational counterpart.  The source has no such
    test; it hands these values to [Math.pow] and [math.lusolve], and
    what they return is not modelled. *)
Definition reconstructPolynomial (selectedShares : object) : reconstruction :=
  let entries := Object_entries selectedShares in
  let xs := map (fun e => Number_of_key (fst e)) entries in
  let ys := map (fun e => Number_of_stored (snd e)) entries in
  match all_exact xs, all_exact ys with
  | Some xs, Some ys =>
      let A := map (fun x => vandermonde_row x (List.length xs)) xs in
      match lusolve A ys with
      | Some coeffsMatrix => Coefficients (map (fun row => hd 0%Q row) coeffsMatrix)
      | None => Singular
      end
  | _, _ => NotFinite
  end.

(* ================================================================= *)
(** ** findConstantTerm and the polynomial expression *)

Section Formatter.
(** The coefficients, their test [coeff !== 0] and their rendering in
    a template string. *)
Variable coefficient : Type.
Variable differs_from_zero : coefficient -> bool.
Variable render : coefficient -> string.

(** [coeffs[coeffs.length - 1]]; [None] is [undefined]. *)
Definition findConstantTerm (coeffs : list coefficient) : option coefficient :=
  match coeffs with
  | [] => None
  | _ => nth_error coeffs (List.length coeffs - 1)
  end.

Definition render_opt (c : option coefficient) : string :=
  match c with
  | Some c => render c
  | None => "undefined"
  end.

(** The body of the loop at index [i]. *)
Definition term_step (coeffs : list coefficient) (i : nat)
  (polynomialTerms : list string) : list string :=
  let currentDegree := (List.length coeffs - 1 - i)%nat in
  match nth_error coeffs i with
  | Some coeff =>
      if differs_from_zero coeff then
        app polynomialTerms
          [if negb (currentDegree =? 0)%nat
           then render coeff ++ "x^" ++ string_of_nat currentDegree
           else render coeff]
      else polynomialTerms
  | None => polynomialTerms
  end.

(** [count] iterations of [for (let i = ...; i < coeffs.length - 1; i++)]. *)
Fixpoint term_loop (count i : nat) (coeffs : list coefficient)
  (polynomialTerms : list string) : list string :=
  match count with
  | O => polynomialTerms
  | S count' =>
      term_loop count' (S i) coeffs (term_step coeffs i polynomialTerms)
  end.

(** The array [polynomialTerms] after the final push. *)
Definition polynomialTerms (coeffs : list coefficient) : list string :=
  app (term_loop (List.length coeffs - 1) 0 coeffs [])
    [render_opt (findConstantTerm coeffs)].

(** [polynomialTerms.join(" + ")]. *)
Definition polynomial (coeffs : list coefficient) : string :=
  join " + " (polynomialTerms coeffs).
End Formatter.
Arguments findConstantTerm {coefficient} coeffs.

(* ================================================================= *)
(** ** Positional numerals, in the words of the specification *)

Definition digit_alphabet : string := "0123456789abcdefghijklmnopqrstuvwxyz".

Definition to_lower (c : ascii) : ascii :=
  if (65 <=? code c) && (code c <=? 90)
  then ascii_of_nat (nat_of_ascii c + 32)
  else c.

Fixpoint alphabet_index (c : ascii) (alphabet : list ascii) (i : Z) : option Z :=
  match alphabet with
  | [] => None
  | a :: alphabet' =>
      if Ascii.eqb c a then Some i else alphabet_index c alphabet' (i + 1)
  end.

(** A digit is its place in the alphabet, whatever its case. *)
Definition numeral_digit (c : ascii) : option Z :=
  alphabet_index (to_lower c) (list_ascii_of_string digit_alphabet) 0.

Definition valid_digit (b : Z) (c : ascii) : bool :=
  match numeral_digit c with
  | Some d => d <? b
  | None => false
  end.

Definition valid_numeral (b : Z) (s : string) : bool :=
  forallb (valid_digit b) (list_ascii_of_string s).

(** Sum of [d_i * b^(len-1-i)]. *)
Fixpoint positional_value (b : Z) (ds : list Z) : Z :=
  match ds with
  | [] => 0
  | d :: ds' => d * b ^ Z.of_nat (List.length ds') + positional_value b ds'
  end.

Definition digits_of (cs : list ascii) : list Z :=
  map (fun c => match numeral_digit c with
                | Some d => d
                | None => 0
                end) cs.

Definition numeral_value (b : Z) (s : string) : Z :=
  positional_value b (digits_of (list_ascii_of_string s)).

(* ================================================================= *)
(** ** Decoded shares, in the words of the specification *)

(** The indices of the shares, in enumeration order. *)
Definition indices (shares : object) : list Z :=
  map (fun e => index_of (fst e)) shares.

(** The entry of [shares] at the integer index [z]. *)
Definition share_at (shares : object) (z : Z) : key * option number :=
  (KNumber (Fin z), obj_get shares (KNumber (Fin z))).

(** A mapping from unique, non-negative integer indices to values. *)
Definition DecodedShares (shares : object) : Prop :=
  NoDup (Object_keys shares)
  /\ Forall (fun e => exists z, fst e = KNumber (Fin z) /\ 0 <= z) shares.

(* ================================================================= *)
(** ** Share documents, in the words of the specification *)

(** The decoded value of a share entry: its value read in its base. *)
Definition decode_share (member : json) : number :=
  convertToDecimal (ToString (member_of member "value"))
    (parseInt (ToString (member_of member "base")) (Fin 10)).

Definition is_share_key (name : string) : bool := negb (String.eqb name "keys").

(** The index a top-level key stands for. *)
Definition share_index (name : string) : number := parseInt name (Fin 10).

(** The last entry, in enumeration order, whose key stands for [x]. *)
Fixpoint last_share (x : number) (entries : list (string * json)) : option json :=
  match entries with
  | [] => None
  | (name, member) :: entries' =>
      match last_share x entries' with
      | Some m => Some m
      | None =>
          if is_share_key name && number_eqb (share_index name) x
          then Some member else None
      end
  end.

(** A document the parser can read: the threshold descriptor is there
    and no share entry is [null]. *)
Definition readable (members : list (string * json)) : Prop :=
  (exists d, assoc "keys" members = Some d /\ d <> JNull)
  /\ Forall (fun e => is_share_key (fst e) = true -> snd e <> JNull) members.

(* ================================================================= *)
(** ** The polynomial expression, in the words of the specification *)

Section Expression.
Variable coefficient : Type.
Variable differs_from_zero : coefficient -> bool.
Variable render : coefficient -> string.

Definition term (c : coefficient) (degree : nat) : string :=
  render c ++ "x^" ++ string_of_nat degree.

(** One term per coefficient, highest degree first; a zero coefficient
    gives no term, except the constant, which is always there. *)
Fixpoint expression_terms (coeffs : list coefficient) : list string :=
  match coeffs with
  | [] => []
  | c :: cs =>
      match cs with
      | [] => [render c]
      | _ =>
          app (if differs_from_zero c then [term c (List.length cs)] else [])
            (expression_terms cs)
      end
  end.
End Expression.

(* ================================================================= *)
(** ** Interpolation, in the words of the specification *)

(** The sum over [i] of [coeff[i] * x^(k-1-i)]. *)
Fixpoint evaluate (coeffs : list Q) (x : Q) : Q :=
  match coeffs with
  | [] => 0%Q
  | c :: cs => (c * x ^ Z.of_nat (List.length cs) + evaluate cs x)%Q
  end.

(** The selected shares that hold the integer points [(x, y)]. *)
Definition selected_of (points : list (Z * Z)) : object :=
  map (fun p => (KNumber (Fin (fst p)), Some (Fin (snd p)))) points.

(** Evaluation by Horner's rule from an accumulator, and the
    accumulators it goes through at [a]: the coefficients of the
    quotient by [x - a]. *)
Fixpoint horner (coeffs : list Q) (x acc : Q) : Q :=
  match coeffs with
  | [] => acc
  | c :: cs => horner cs x (acc * x + c)%Q
  end.

Fixpoint running (a : Q) (coeffs : list Q) (acc : Q) : list Q :=
  match coeffs with
  | [] => []
  | c :: cs => acc :: running a cs (acc * a + c)%Q
  end.

(** Every share entry of the document holds a point of the polynomial
    [original], at a non-negative integer index. *)
Definition samples (original : list Z) (members : list (string * json)) : Prop :=
  Forall (fun e =>
            is_share_key (fst e) = true ->
            exists x y,
              0 <= x /\ share_index (fst e) = Fin x
              /\ decode_share (snd e) = Fin y
              /\ (evaluate (map inject_Z original) (inject_Z x) == inject_Z y)%Q)
         members.

(* ================================================================= *)
(** ** Where the decoder rounds once *)

(** The bases that the engines read exactly and round once, at every
    length: base 10 and the powers of two.  In the other bases the
    digits are accumulated in binary64, which is exact below 2^53 only. *)
Definition rounds_exactly (R : Z) : bool :=
  existsb (Z.eqb R) [2; 4; 8; 10; 16; 32].

(* ================================================================= *)
(** ** Letter case *)

(** The string with its letters A-Z replaced by a-z. *)
Definition lower_case (s : string) : string :=
  string_of_list_ascii (map to_lower (list_ascii_of_string s)).

(* ================================================================= *)
(** * Properties *)

(** Case analysis over the 256 code units. *)
Ltac each_code_unit c := destruct c as [[] [] [] [] [] [] [] []].

(** ** Numbers *)

Lemma number_eqb_spec (a b : number) : reflect (a = b) (number_eqb a b).
Proof.
  destruct a as [|s|x], b as [|t|y]; simpl; try (constructor; congruence).
  - destruct (Bool.eqb_spec s t); constructor; congruence.
  - destruct (Z.eqb_spec x y); constructor; congruence.
Qed.

Lemma to_double_small (z : Z) : Z.abs z < 2 ^ 53 -> to_double z = Fin z.
Proof.
  intros H. unfold to_double.
  destruct (Z.ltb_spec (Z.abs z) (2 ^ 53)); [reflexivity | lia].
Qed.

(** ** The base decoder *)

Lemma digit_value_numeral_digit (c : ascii) : digit_value c = numeral_digit c.
Proof. each_code_unit c; vm_compute; reflexivity. Qed.

Lemma is_radix_digit_valid_digit (b : Z) (c : ascii) :
  is_radix_digit b c = valid_digit b c.
Proof.
  unfold is_radix_digit, valid_digit. now rewrite digit_value_numeral_digit.
Qed.

Lemma digits_of_length (cs : list ascii) :
  List.length (digits_of cs) = List.length cs.
Proof. unfold digits_of. apply length_map. Qed.

Lemma radix_value_horner (b : Z) (cs : list ascii) (acc : Z) :
  fold_left (fun acc c => acc * b + match digit_value c with
                                    | Some d => d
                                    | None => 0
                                    end) cs acc
  = acc * b ^ Z.of_nat (List.length cs) + positional_value b (digits_of cs).
Proof.
  revert acc. induction cs as [|c cs IH]; intros acc.
  - simpl. lia.
  - cbn [fold_left List.length digits_of map positional_value].
    rewrite IH. fold (digits_of cs).
    rewrite digit_value_numeral_digit.
    rewrite Nat2Z.inj_succ, Z.pow_succ_r by lia.
    rewrite digits_of_length. ring.
Qed.

Lemma radix_value_positional (b : Z) (cs : list ascii) :
  radix_value b cs = positional_value b (digits_of cs).
Proof. unfold radix_value. rewrite radix_value_horner. lia. Qed.

Lemma digit_prefix_all (b : Z) (cs : list ascii) :
  forallb (valid_digit b) cs = true -> digit_prefix b cs = cs.
Proof.
  induction cs as [|c cs IH]; simpl; [reflexivity|].
  rewrite andb_true_iff. intros [Hc Hcs].
  rewrite is_radix_digit_valid_digit, Hc. now rewrite IH.
Qed.

Lemma digit_prefix_stop (b : Z) (p rest : list ascii) (c : ascii) :
  forallb (valid_digit b) p = true -> valid_digit b c = false ->
  digit_prefix b (p ++ c :: rest)%list = p.
Proof.
  intros Hp Hc. induction p as [|a p IH]; simpl in *.
  - now rewrite is_radix_digit_valid_digit, Hc.
  - apply andb_true_iff in Hp as [Ha Hp].
    rewrite is_radix_digit_valid_digit, Ha. now rewrite IH.
Qed.

(** A digit is neither white space nor a sign. *)
Lemma digit_not_space_nor_sign (c : ascii) (d : Z) :
  numeral_digit c = Some d -> is_white_space c = false /\ is_sign c = false.
Proof.
  revert d. each_code_unit c; vm_compute;
    intros d H; try discriminate H; split; reflexivity.
Qed.

Lemma valid_digit_not_space_nor_sign (b : Z) (c : ascii) :
  valid_digit b c = true -> is_white_space c = false /\ is_sign c = false.
Proof.
  unfold valid_digit. destruct (numeral_digit c) as [d|] eqn:E; [|discriminate].
  intros _. exact (digit_not_space_nor_sign c d E).
Qed.

(** The letter x is the digit 33: it is no digit of base 16. *)
Lemma hex_marker_not_hex_digit (c : ascii) :
  (code c =? 120) || (code c =? 88) = true -> valid_digit 16 c = false.
Proof.
  each_code_unit c; vm_compute; intros H;
    try discriminate H; reflexivity.
Qed.

Lemma ToInt32_small (z : Z) : 0 <= z < 2 ^ 31 -> ToInt32 (Fin z) = z.
Proof.
  intros H. unfold ToInt32. rewrite Z.mod_small by lia.
  destruct (Z.leb_spec (2 ^ 31) z); lia.
Qed.

(** [parseInt] on a string that starts with neither white space nor a
    sign, in a base that strips no prefix. *)
Lemma parseInt_unsigned (b : Z) (cs : list ascii) :
  2 <= b <= 36 ->
  match cs with
  | c :: _ => is_white_space c = false /\ is_sign c = false
  | [] => True
  end ->
  (b = 16 -> is_hex_prefix cs = false) ->
  parseInt (string_of_list_ascii cs) (Fin b) =
  match digit_prefix b cs with
  | [] => NaN
  | Zs => to_double (radix_value b Zs)
  end.
Proof.
  intros Hb Hfirst Hhex. unfold parseInt.
  rewrite list_ascii_of_string_of_list_ascii.
  assert (Htrim : trim_start cs = cs).
  { destruct cs as [|c cs]; [reflexivity|]. simpl.
    destruct Hfirst as [Hw _]. now rewrite Hw. }
  rewrite Htrim.
  assert (Hsign : match cs with
                  | c :: _ => if code c =? 45 then -1 else 1
                  | [] => 1
                  end = 1).
  { destruct cs as [|c cs]; [reflexivity|].
    destruct Hfirst as [_ Hs]. unfold is_sign in Hs.
    apply orb_false_iff in Hs as [_ Hs]. now rewrite Hs. }
  rewrite Hsign.
  assert (Hrest : match cs with
                  | c :: rest => if is_sign c then rest else cs
                  | [] => cs
                  end = cs).
  { destruct cs as [|c cs]; [reflexivity|].
    destruct Hfirst as [_ Hs]. now rewrite Hs. }
  rewrite Hrest.
  rewrite ToInt32_small by lia.
  replace (b =? 0) with false by (symmetry; apply Z.eqb_neq; lia).
  replace (b <? 2) with false by (symmetry; apply Z.ltb_ge; lia).
  replace (36 <? b) with false by (symmetry; apply Z.ltb_ge; lia).
  cbn [negb andb orb].
  assert (Hnohex : (b =? 16) && is_hex_prefix cs = false).
  { destruct (Z.eqb_spec b 16) as [E|E]; [|reflexivity].
    simpl. now apply Hhex. }
  rewrite Hnohex.
  destruct (digit_prefix b cs) as [|z zs]; [reflexivity|].
  now rewrite Z.mul_1_l.
Qed.

(** A numeral of valid digits has no prefix to strip in base 16. *)
Lemma valid_numeral_no_hex_prefix (cs : list ascii) :
  forallb (valid_digit 16) cs = true -> is_hex_prefix cs = false.
Proof.
  destruct cs as [|c0 [|c1 cs]]; try reflexivity.
  simpl. rewrite !andb_true_iff. intros [_ [H1 _]].
  destruct ((code c1 =? 120) || (code c1 =? 88)) eqn:E.
  - apply hex_marker_not_hex_digit in E. congruence.
  - apply andb_false_r.
Qed.

Lemma string_of_list_ascii_eq (s : string) :
  string_of_list_ascii (list_ascii_of_string s) = s.
Proof. apply string_of_list_ascii_of_string. Qed.

(** C3 (as amended).  For every base [b] in [2,36] and every non-empty
    numeral whose characters are all digits of base [b], letters of
    either case standing for 10-35, [convertToDecimal] returns the
    positional value of the numeral whenever that is below 2^53, and,
    in base 10 and in the bases that are powers of two, the binary64
    nearest to the positional value whatever its size. *)
Theorem convertToDecimal_positional (b : Z) (s : string) :
  2 <= b <= 36 ->
  s <> EmptyString ->
  valid_numeral b s = true ->
  (numeral_value b s < 2 ^ 53 ->
   convertToDecimal s (Fin b) = Fin (numeral_value b s))
  /\ (rounds_exactly b = true ->
      convertToDecimal s (Fin b) = to_double (numeral_value b s)).
Proof.
  intros Hb Hne Hvalid.
  cut (convertToDecimal s (Fin b) = to_double (numeral_value b s)
       /\ (numeral_value b s < 2 ^ 53 ->
           convertToDecimal s (Fin b) = Fin (numeral_value b s))).
  { intros [Hall Hsmall]. split; [exact Hsmall | intros _; exact Hall]. }
  assert (Hmain : convertToDecimal s (Fin b) = to_double (numeral_value b s)).
  { unfold convertToDecimal, numeral_value, valid_numeral in *.
    rewrite <- (string_of_list_ascii_eq s) at 1.
    set (cs := list_ascii_of_string s) in *.
    assert (Hcs : cs <> []).
    { intros E. apply Hne. rewrite <- (string_of_list_ascii_eq s).
      fold cs. now rewrite E. }
    rewrite parseInt_unsigned; try assumption.
    - rewrite digit_prefix_all by assumption.
      destruct cs as [|c cs']; [congruence|].
      now rewrite radix_value_positional.
    - destruct cs as [|c cs']; [exact I|].
      simpl in Hvalid. apply andb_true_iff in Hvalid as [Hc _].
      exact (valid_digit_not_space_nor_sign b c Hc).
    - intros ->. now apply valid_numeral_no_hex_prefix. }
  split; [exact Hmain|].
  intros Hsmall. rewrite Hmain. apply to_double_small.
  assert (0 <= numeral_value b s); [|lia].
  unfold numeral_value. clear -Hb.
  induction (list_ascii_of_string s) as [|c cs IH]; simpl; [lia|].
  assert (0 <= match numeral_digit c with Some d => d | None => 0 end).
  { each_code_unit c; vm_compute; congruence. }
  assert (0 <= b ^ Z.of_nat (List.length (digits_of cs))) by (apply Z.pow_nonneg; lia).
  nia.
Qed.

(** The base-16 numeral 1E, in either case, decodes to 30. *)
Lemma convertToDecimal_positional_witness :
  convertToDecimal "1E" (Fin 16) = Fin 30
  /\ convertToDecimal "1e" (Fin 16) = Fin 30.
Proof.
  split.
  - apply (convertToDecimal_positional 16 "1E");
      [lia | discriminate | reflexivity | vm_compute; reflexivity].
  - apply (convertToDecimal_positional 16 "1e");
      [lia | discriminate | reflexivity | vm_compute; reflexivity].
Defined.

(** C3, as stated, fails on the empty numeral, which decodes to [NaN],
    and on numerals above 2^53, which decode to a neighbouring value
    (here in base 10, where the nearest binary64 is returned). *)
Lemma convertToDecimal_positional_counterexample :
  (valid_numeral 10 EmptyString = true
   /\ convertToDecimal EmptyString (Fin 10) = NaN
   /\ convertToDecimal EmptyString (Fin 10)
      <> Fin (numeral_value 10 EmptyString))
  /\ (valid_numeral 10 "9007199254740993" = true
      /\ convertToDecimal "9007199254740993" (Fin 10) = Fin 9007199254740992
      /\ convertToDecimal "9007199254740993" (Fin 10)
         <> Fin (numeral_value 10 "9007199254740993")).
Proof.
  split; (split; [reflexivity|]); (split; [vm_compute; reflexivity|]);
    vm_compute; discriminate.
Qed.

(** C4 (as amended).  [convertToDecimal] raises no error.  In a base
    [b] of [2,36], a numeral whose first invalid character is [c]
    decodes to the value of the digits [p] before [c] (to the binary64
    nearest to it, the base being 10 or a power of two, or the value
    being below 2^53, where it is the value itself), and to [NaN] when
    there are none (the numeral starting with neither white space, a
    sign nor, in base 16, the prefix 0x).  A base whose 32-bit integer
    value is non-zero and outside [2,36] gives [NaN]. *)
Theorem convertToDecimal_invalid_numeral
  (b : Z) (p rest : list ascii) (c : ascii) (s : string) (base : number) :
  (2 <= b <= 36 ->
   forallb (valid_digit b) p = true ->
   valid_digit b c = false ->
   rounds_exactly b = true \/ positional_value b (digits_of p) < 2 ^ 53 ->
   (p = [] -> is_white_space c = false /\ is_sign c = false) ->
   (b = 16 -> is_hex_prefix (p ++ c :: rest)%list = false) ->
   convertToDecimal (string_of_list_ascii (p ++ c :: rest)%list) (Fin b) =
   match p with
   | [] => NaN
   | _ => to_double (positional_value b (digits_of p))
   end)
  /\ (ToInt32 base <> 0 ->
      ToInt32 base < 2 \/ 36 < ToInt32 base ->
      convertToDecimal s base = NaN).
Proof.
  split.
  - intros Hb Hp Hc _ Hfirst Hhex. unfold convertToDecimal.
    rewrite parseInt_unsigned; try assumption.
    + rewrite digit_prefix_stop by assumption.
      destruct p as [|a p']; [reflexivity|].
      now rewrite radix_value_positional.
    + destruct p as [|a p']; simpl.
      * now apply Hfirst.
      * simpl in Hp. apply andb_true_iff in Hp as [Ha _].
        exact (valid_digit_not_space_nor_sign b a Ha).
  - intros Hnz Hout. unfold convertToDecimal, parseInt.
    destruct (Z.eqb_spec (ToInt32 base) 0) as [E|_]; [congruence|].
    destruct Hout as [Hlo|Hhi].
    + replace (ToInt32 base <? 2) with true by (symmetry; apply Z.ltb_lt; lia).
      reflexivity.
    + replace (36 <? ToInt32 base) with true by (symmetry; apply Z.ltb_lt; lia).
      now rewrite orb_true_r.
Qed.

(** In base 2 the numeral 102 decodes its prefix 10; base 37 gives [NaN]. *)
Lemma convertToDecimal_invalid_numeral_witness :
  convertToDecimal "102" (Fin 2) = Fin 2
  /\ convertToDecimal "102" (Fin 37) = NaN.
Proof.
  split.
  - apply (convertToDecimal_invalid_numeral 2 ["1"; "0"]%char [] "2"%char
             EmptyString NaN);
      [lia | reflexivity | reflexivity | left; reflexivity | discriminate
      | intros H; discriminate H].
  - apply (convertToDecimal_invalid_numeral 2 [] [] "2"%char "102" (Fin 37));
      [vm_compute; discriminate | right; vm_compute; reflexivity].
Defined.

(** C4, as stated, fails: a value is returned for the base-2 string
    102 (its prefix 10), and for a base outside [2,36]. *)
Lemma convertToDecimal_invalid_numeral_counterexample :
  (valid_numeral 2 "102" = false /\ convertToDecimal "102" (Fin 2) = Fin 2)
  /\ convertToDecimal "12" (Fin 0) = Fin 12
  /\ convertToDecimal "12" (Fin 37) = NaN.
Proof. vm_compute. repeat split; reflexivity. Qed.

(** ** Objects *)

Lemma key_eqb_spec (a b : key) : reflect (a = b) (key_eqb a b).
Proof.
  destruct a as [x|], b as [y|]; simpl; try (constructor; congruence).
  destruct (number_eqb_spec x y); constructor; congruence.
Qed.

Lemma key_eqb_refl (a : key) : key_eqb a a = true.
Proof. destruct (key_eqb_spec a a); congruence. Qed.

Lemma has_key_In (o : object) (k : key) :
  has_key o k = true <-> In k (Object_keys o).
Proof.
  unfold has_key, Object_keys. rewrite existsb_exists, in_map_iff. split.
  - intros [e [He Hk]]. exists e. split; [|exact He].
    destruct (key_eqb_spec k (fst e)); congruence.
  - intros [e [Hk He]]. exists e. split; [exact He|].
    rewrite Hk. apply key_eqb_refl.
Qed.

Lemma has_key_false (o : object) (k : key) :
  ~ In k (Object_keys o) -> has_key o k = false.
Proof.
  intros H. destruct (has_key o k) eqn:E; [|reflexivity].
  apply has_key_In in E. contradiction.
Qed.

Lemma obj_get_absent (o : object) (k : key) :
  ~ In k (Object_keys o) -> obj_get o k = None.
Proof.
  induction o as [|[k' v] o IH]; simpl; [reflexivity|].
  intros H. destruct (key_eqb_spec k k') as [->|_].
  - exfalso. apply H. now left.
  - apply IH. intros Hin. apply H. now right.
Qed.

Lemma obj_get_In (o : object) (k : key) :
  In k (Object_keys o) -> In (k, obj_get o k) o.
Proof.
  induction o as [|[k' v] o IH]; simpl; [contradiction|].
  intros H. destruct (key_eqb_spec k k') as [->|Hne].
  - now left.
  - right. apply IH. destruct H as [H|H]; [congruence|exact H].
Qed.

Lemma In_obj_get (o : object) (k : key) (v : option number) :
  NoDup (Object_keys o) -> In (k, v) o -> obj_get o k = v.
Proof.
  induction o as [|[k' v'] o IH]; simpl; [contradiction|].
  intros Hnd Hin. inversion Hnd as [|? ? Hnotin Hnd']; subst.
  destruct (key_eqb_spec k k') as [->|Hne].
  - destruct Hin as [Hin|Hin]; [congruence|].
    exfalso. apply Hnotin. unfold Object_keys.
    apply in_map_iff. now exists (k', v).
  - destruct Hin as [Hin|Hin]; [congruence|]. now apply IH.
Qed.

Lemma obj_get_Permutation (o o' : object) (k : key) :
  NoDup (Object_keys o) -> Permutation o' o -> obj_get o' k = obj_get o k.
Proof.
  intros Hnd Hperm.
  assert (Hnd' : NoDup (Object_keys o')).
  { unfold Object_keys in *.
    eapply Permutation_NoDup; [|exact Hnd].
    apply Permutation_map. now apply Permutation_sym. }
  destruct (in_dec (fun a b => reflect_dec _ _ (key_eqb_spec a b)) k (Object_keys o))
    as [Hin|Hout].
  - apply In_obj_get; [exact Hnd'|].
    eapply Permutation_in; [apply Permutation_sym; exact Hperm|].
    now apply obj_get_In.
  - rewrite (obj_get_absent o k Hout). apply obj_get_absent.
    intros Hin. apply Hout. unfold Object_keys in *.
    eapply Permutation_in; [|exact Hin]. now apply Permutation_map.
Qed.


Lemma is_array_index_below (z z' : Z) :
  0 <= z' < z ->
  is_array_index (KNumber (Fin z)) = true ->
  is_array_index (KNumber (Fin z')) = true.
Proof.
  unfold is_array_index. rewrite !andb_true_iff, !Z.leb_le, !Z.ltb_lt. lia.
Qed.

(** So is an integer key above every key of the object. *)
Lemma obj_create_above (o : object) (z : Z) (v : option number) :
  Forall (fun e => exists z', fst e = KNumber (Fin z') /\ 0 <= z' < z) o ->
  obj_create (KNumber (Fin z)) v o = (o ++ [(KNumber (Fin z), v)])%list.
Proof.
  induction 1 as [|[k' v'] o [z' [Hk' Hz']] _ IH]; [reflexivity|].
  cbn [fst] in Hk'. subst k'.
  cbn [obj_create app index_of]. rewrite IH.
  replace (z <? z') with false by (symmetry; apply Z.ltb_ge; lia).
  destruct (is_array_index (KNumber (Fin z))) eqn:E; [|reflexivity].
  now rewrite (is_array_index_below z z' Hz' E).
Qed.

Lemma obj_set_above (o : object) (z : Z) (v : option number) :
  Forall (fun e => exists z', fst e = KNumber (Fin z') /\ 0 <= z' < z) o ->
  obj_set (KNumber (Fin z)) v o = (o ++ [(KNumber (Fin z), v)])%list.
Proof.
  intros H. unfold obj_set. rewrite has_key_false.
  - now apply obj_create_above.
  - unfold Object_keys. rewrite in_map_iff. intros [e [He Hin]].
    rewrite Forall_forall in H. destruct (H e Hin) as [z' [Hz' Hlt]].
    rewrite Hz' in He. inversion He. lia.
Qed.


(** ** Sorting the keys *)

Lemma to_double_sign (d : Z) : is_positive (to_double d) = (0 <? d).
Proof.
  unfold to_double.
  destruct (Z.ltb_spec (Z.abs d) (2 ^ 53)) as [_|Hbig]; [reflexivity|].
  set (a := Z.abs d) in *.
  set (e := Z.log2 a - 52).
  assert (Ha : 0 < a) by (assert (0 < 2 ^ 53) by (apply Z.pow_pos_nonneg; lia); lia).
  assert (He : 1 <= e).
  { assert (53 <= Z.log2 a) by (apply Z.log2_le_pow2; lia). unfold e. lia. }
  assert (Hpow : 0 < 2 ^ e) by (apply Z.pow_pos_nonneg; lia).
  assert (Hle : 2 ^ e <= a).
  { transitivity (2 ^ Z.log2 a).
    - apply Z.pow_le_mono_r; unfold e; lia.
    - apply Z.log2_spec. exact Ha. }
  assert (Hq : 1 <= a / 2 ^ e).
  { apply Z.div_le_lower_bound; lia. }
  set (q := a / 2 ^ e) in *.
  set (m := if a mod 2 ^ e <? 2 ^ (e - 1) then q
            else if 2 ^ (e - 1) <? a mod 2 ^ e then q + 1
            else if Z.even q then q else q + 1).
  assert (Hm : 1 <= m).
  { unfold m. destruct (a mod 2 ^ e <? 2 ^ (e - 1)); [lia|].
    destruct (2 ^ (e - 1) <? a mod 2 ^ e); [lia|].
    destruct (Z.even q); lia. }
  assert (Hv : 0 < m * 2 ^ e) by nia.
  destruct (2 ^ 1024 <=? m * 2 ^ e).
  - simpl. unfold a in Ha.
    destruct (Z.ltb_spec d 0), (Z.ltb_spec 0 d); simpl; try reflexivity; lia.
  - simpl. unfold a in Ha.
    destruct (Z.ltb_spec 0 d) as [Hd|Hd].
    + rewrite Z.sgn_pos by lia. apply Z.ltb_lt. lia.
    + assert (d < 0) by lia. rewrite Z.sgn_neg by lia. apply Z.ltb_ge. lia.
Qed.

Lemma number_sub_sign (x y : Z) :
  is_positive (number_sub (Fin x) (Fin y)) = (y <? x).
Proof.
  simpl. rewrite to_double_sign.
  destruct (Z.ltb_spec 0 (x - y)), (Z.ltb_spec y x); try reflexivity; lia.
Qed.

Section SortIntegers.
Variable comparefn : number -> number -> number.
Hypothesis comparefn_sign :
  forall x y, is_positive (comparefn (Fin x) (Fin y)) = (y <? x).

Lemma sort_insert_integers (x : Z) (l : list Z) :
  StronglySorted Z.le l ->
  exists l', sort_insert comparefn (Fin x) (map Fin l) = map Fin l'
             /\ Permutation l' (x :: l) /\ StronglySorted Z.le l'.
Proof.
  induction l as [|y l IH]; intros Hs.
  - exists [x]. repeat split; auto. constructor; constructor.
  - inversion Hs as [|? ? Hs' Hy]; subst.
    cbn [map sort_insert]. rewrite comparefn_sign.
    destruct (Z.ltb_spec y x) as [Hlt|Hge].
    + destruct (IH Hs') as [l' [E [P S']]].
      exists (y :: l'). rewrite E. repeat split.
      * apply perm_trans with (y :: x :: l); [now constructor | apply perm_swap].
      * constructor; [exact S'|].
        rewrite Forall_forall in *. intros z Hz.
        apply (Permutation_in _ P) in Hz. destruct Hz as [<-|Hz]; [lia|auto].
    + exists (x :: y :: l). repeat split; auto.
      constructor; [exact Hs|]. constructor; [lia|].
      rewrite Forall_forall in *. intros z Hz. specialize (Hy z Hz). lia.
Qed.

Lemma Array_sort_integers (l : list Z) :
  exists l', Array_sort comparefn (map Fin l) = map Fin l'
             /\ Permutation l' l /\ StronglySorted Z.le l'.
Proof.
  induction l as [|x l [l1 [E [P S1]]]].
  - exists []. repeat split; auto. constructor.
  - cbn [map Array_sort]. rewrite E.
    destruct (sort_insert_integers x l1 S1) as [l' [E' [P' S']]].
    exists l'. repeat split; auto.
    rewrite P'. now constructor.
Qed.
End SortIntegers.

Lemma sorted_le_NoDup_lt (l : list Z) :
  StronglySorted Z.le l -> NoDup l -> StronglySorted Z.lt l.
Proof.
  induction 1 as [|x l Hs IH Hx]; intros Hnd; [constructor|].
  inversion Hnd as [|? ? Hnotin Hnd']; subst.
  constructor; [now apply IH|].
  rewrite Forall_forall in *. intros z Hz.
  assert (x <> z) by (intros ->; contradiction).
  specialize (Hx z Hz). lia.
Qed.

(** A strictly ascending list is determined by its elements. *)
Lemma sorted_lt_unique (l1 l2 : list Z) :
  StronglySorted Z.lt l1 -> StronglySorted Z.lt l2 ->
  (forall z, In z l1 <-> In z l2) -> l1 = l2.
Proof.
  intros S1. revert l2.
  induction S1 as [|a l1 S1 IH Ha]; intros l2 S2 Hin.
  - destruct l2 as [|b l2]; [reflexivity|].
    exfalso. apply (Hin b). now left.
  - destruct S2 as [|b l2 S2 Hb].
    + exfalso. apply (Hin a). now left.
    + rewrite Forall_forall in Ha, Hb.
      assert (a = b).
      { destruct (proj1 (Hin a) (or_introl eq_refl)) as [E|Hl2]; [auto|].
        destruct (proj2 (Hin b) (or_introl eq_refl)) as [E|Hl1]; [auto|].
        specialize (Ha b Hl1). specialize (Hb a Hl2). lia. }
      subst b. f_equal. apply IH; [exact S2|].
      intros z. split; intros Hz.
      * destruct (proj1 (Hin z) (or_intror Hz)) as [E|H]; [|exact H].
        specialize (Ha z Hz). lia.
      * destruct (proj2 (Hin z) (or_intror Hz)) as [E|H]; [|exact H].
        specialize (Hb z Hz). lia.
Qed.

(** ** Selection *)

Lemma DecodedShares_keys (shares : object) :
  DecodedShares shares ->
  map Number_of_key (Object_keys shares) = map Fin (indices shares).
Proof.
  intros [_ H]. unfold Object_keys, indices. rewrite !map_map.
  apply map_ext_in. intros e He. rewrite Forall_forall in H.
  destruct (H e He) as [z [-> _]]. reflexivity.
Qed.

Lemma DecodedShares_entry (shares : object) (e : key * option number) :
  DecodedShares shares -> In e shares -> e = share_at shares (index_of (fst e)).
Proof.
  intros [Hnd H] He. rewrite Forall_forall in H.
  destruct (H e He) as [z [Hz _]]. destruct e as [k v]. simpl in Hz. subst k.
  unfold share_at. simpl. f_equal. symmetry. now apply In_obj_get.
Qed.

Lemma DecodedShares_indices (shares : object) :
  DecodedShares shares ->
  NoDup (indices shares) /\ Forall (fun z => 0 <= z) (indices shares).
Proof.
  intros [Hnd H]. split.
  - unfold Object_keys, indices in *.
    induction shares as [|e shares IH]; [constructor|].
    inversion Hnd as [|? ? Hnotin Hnd']; subst.
    inversion H as [|? ? [z [Hz _]] H']; subst.
    simpl. constructor; [|now apply IH].
    rewrite in_map_iff. intros [e' [Heq Hin]]. apply Hnotin.
    rewrite in_map_iff. exists e'. split; [|exact Hin].
    rewrite Forall_forall in H'. destruct (H' e' Hin) as [z' [Hz' _]].
    rewrite Hz, Hz' in *. simpl in Heq. congruence.
  - unfold indices. rewrite Forall_map. eapply Forall_impl; [|exact H].
    intros e [z [-> Hz]]. exact Hz.
Qed.


(** The sorted keys of decoded shares: their indices, strictly ascending. *)
Lemma sortedKeys_ascending (shares : object) :
  DecodedShares shares ->
  exists zs,
    Array_sort (fun a b => number_sub a b)
      (map Number_of_key (Object_keys shares)) = map Fin zs
    /\ Permutation zs (indices shares)
    /\ StronglySorted Z.lt zs.
Proof.
  intros Hd. rewrite (DecodedShares_keys shares Hd).
  destruct (Array_sort_integers (fun a b => number_sub a b) number_sub_sign
              (indices shares)) as [zs [E [P S]]].
  exists zs. repeat split; auto.
  apply sorted_le_NoDup_lt; [exact S|].
  eapply Permutation_NoDup; [apply Permutation_sym; exact P|].
  now apply DecodedShares_indices.
Qed.

Lemma sorted_lt_before (zs : list Z) (i : nat) (z : Z) :
  StronglySorted Z.lt zs -> nth_error zs i = Some z ->
  Forall (fun z' => z' < z) (firstn i zs).
Proof.
  intros S. revert i. induction S as [|a zs S IH Ha]; intros i Hi.
  - destruct i; discriminate.
  - destruct i as [|i]; simpl in *; [constructor|].
    constructor.
    + rewrite Forall_forall in Ha. apply Ha. eapply nth_error_In; eauto.
    + now apply IH.
Qed.

Lemma In_firstn {A : Type} (l : list A) (i : nat) (x : A) :
  In x (firstn i l) -> In x l.
Proof.
  intros H. rewrite <- (firstn_skipn i l). apply in_or_app. now left.
Qed.

Lemma firstn_snoc (zs : list Z) (i : nat) (z : Z) :
  nth_error zs i = Some z -> firstn (S i) zs = (firstn i zs ++ [z])%list.
Proof.
  revert i. induction zs as [|a zs IH]; intros i Hi.
  - destruct i; discriminate.
  - destruct i as [|i]; simpl in *.
    + now inversion Hi.
    + f_equal. now apply IH.
Qed.

(** While keys remain, each iteration appends the next share. *)
Lemma select_loop_prefix (shares : object) (zs : list Z) (count i : nat) :
  StronglySorted Z.lt zs -> Forall (fun z => 0 <= z) zs ->
  (i + count <= List.length zs)%nat ->
  select_loop count i (map Fin zs) shares (map (share_at shares) (firstn i zs))
  = map (share_at shares) (firstn (i + count) zs).
Proof.
  intros S Hpos. revert i.
  induction count as [|count IH]; intros i Hlen.
  - now rewrite Nat.add_0_r.
  - destruct (nth_error zs i) as [z|] eqn:Hz.
    2:{ apply nth_error_None in Hz. lia. }
    cbn [select_loop]. rewrite nth_error_map, Hz. cbn [option_map property_key].
    rewrite obj_set_above.
    + change ((KNumber (Fin z), obj_get shares (KNumber (Fin z))))
        with (share_at shares z).
      change [share_at shares z] with (map (share_at shares) [z]).
      rewrite <- map_app, <- (firstn_snoc zs i z Hz).
      rewrite IH by lia. f_equal. f_equal. lia.
    + rewrite Forall_map. pose proof (sorted_lt_before zs i z S Hz) as Hlt.
      rewrite Forall_forall in *. intros z' Hz'.
      exists z'. split; [reflexivity|]. split.
      * apply Hpos. eapply In_firstn; eauto.
      * now apply Hlt.
Qed.

Lemma selectShares_prefix (shares : object) (k : Z) :
  DecodedShares shares ->
  0 <= k <= Z.of_nat (List.length shares) ->
  exists zs,
    Permutation zs (indices shares) /\ StronglySorted Z.lt zs
    /\ selectShares shares k = map (share_at shares) (firstn (Z.to_nat k) zs).
Proof.
  intros Hd Hk.
  destruct (sortedKeys_ascending shares Hd) as [zs [E [P S]]].
  exists zs. repeat split; auto.
  unfold selectShares. rewrite E.
  apply (select_loop_prefix shares zs (Z.to_nat k) 0 S).
  - eapply Permutation_Forall; [apply Permutation_sym; exact P|].
    now apply DecodedShares_indices.
  - rewrite (Permutation_length P). unfold indices. rewrite length_map. lia.
Qed.

Lemma sorted_firstn (zs : list Z) (i : nat) :
  StronglySorted Z.lt zs -> StronglySorted Z.lt (firstn i zs).
Proof.
  intros S. revert i. induction S as [|a zs S IH Ha]; intros i.
  - rewrite firstn_nil. constructor.
  - destruct i as [|i]; simpl; constructor; [apply IH|].
    rewrite Forall_forall in *. intros z Hz. apply Ha.
    eapply In_firstn; eauto.
Qed.

Lemma sorted_app_lt (l1 l2 : list Z) (a b : Z) :
  StronglySorted Z.lt (l1 ++ l2)%list -> In a l1 -> In b l2 -> a < b.
Proof.
  induction l1 as [|x l1 IH]; simpl; intros S Ha Hb; [contradiction|].
  inversion S as [|? ? S' Hx]; subst.
  destruct Ha as [<-|Ha]; [|now apply IH].
  rewrite Forall_forall in Hx. apply Hx. apply in_or_app. now right.
Qed.

Lemma indices_share_at (shares : object) (zs : list Z) :
  indices (map (share_at shares) zs) = zs.
Proof.
  unfold indices. rewrite map_map. simpl. apply map_id.
Qed.

Lemma DecodedShares_Permutation (shares shares' : object) :
  DecodedShares shares -> Permutation shares' shares -> DecodedShares shares'.
Proof.
  intros [Hnd H] P. split.
  - unfold Object_keys in *. eapply Permutation_NoDup; [|exact Hnd].
    apply Permutation_map. now apply Permutation_sym.
  - eapply Permutation_Forall; [apply Permutation_sym; exact P|exact H].
Qed.

Lemma In_indices (shares : object) (z : Z) :
  DecodedShares shares -> In z (indices shares) -> In (share_at shares z) shares.
Proof.
  intros Hd Hz. unfold indices in Hz. apply in_map_iff in Hz as [e [<- He]].
  now rewrite <- (DecodedShares_entry shares e Hd He).
Qed.

(** C7.  For decoded shares (unique, non-negative integer indices) with
    at least [k] entries, [selectShares] returns exactly [k] entries,
    ascending by index, each an entry of the input with its own value,
    every index left out being above every index selected; and the
    result is the same for every enumeration order of the input. *)
Theorem selectShares_smallest (shares : object) (k : Z) :
  DecodedShares shares ->
  0 <= k <= Z.of_nat (List.length shares) ->
  Z.of_nat (List.length (selectShares shares k)) = k
  /\ StronglySorted Z.lt (indices (selectShares shares k))
  /\ (forall e, In e (selectShares shares k) -> In e shares)
  /\ (forall e e',
        In e shares -> ~ In e (selectShares shares k) ->
        In e' (selectShares shares k) ->
        index_of (fst e') < index_of (fst e))
  /\ (forall shares',
        Permutation shares' shares ->
        selectShares shares' k = selectShares shares k).
Proof.
  intros Hd Hk.
  destruct (selectShares_prefix shares k Hd Hk) as [zs [P [S E]]].
  assert (Hlen : List.length zs = List.length shares).
  { rewrite (Permutation_length P). unfold indices. apply length_map. }
  rewrite E. repeat split.
  - rewrite length_map, length_firstn. lia.
  - rewrite indices_share_at. now apply sorted_firstn.
  - intros e He. apply in_map_iff in He as [z [<- Hz]].
    apply In_indices; [exact Hd|].
    eapply Permutation_in; [exact P|]. eapply In_firstn; eauto.
  - intros e e' He Hout He'.
    apply in_map_iff in He' as [z' [<- Hz']]. simpl.
    rewrite <- (firstn_skipn (Z.to_nat k) zs) in S.
    apply (sorted_app_lt _ _ _ _ S Hz').
    assert (Hz : In (index_of (fst e)) zs).
    { eapply Permutation_in; [apply Permutation_sym; exact P|].
      unfold indices. apply in_map_iff. now exists e. }
    rewrite <- (firstn_skipn (Z.to_nat k) zs) in Hz.
    apply in_app_or in Hz as [Hz|Hz]; [|exact Hz].
    exfalso. apply Hout. apply in_map_iff.
    exists (index_of (fst e)). split; [|exact Hz].
    symmetry. now apply DecodedShares_entry.
  - intros shares' P'.
    pose proof (DecodedShares_Permutation shares shares' Hd P') as Hd'.
    assert (Hk' : 0 <= k <= Z.of_nat (List.length shares'))
      by (rewrite (Permutation_length P'); exact Hk).
    destruct (selectShares_prefix shares' k Hd' Hk') as [zs' [Q [S' E']]].
    rewrite E'.
    assert (zs' = zs) as ->.
    { apply sorted_lt_unique; auto. intros z.
      assert (Permutation zs' zs).
      { rewrite Q, P. unfold indices. now apply Permutation_map. }
      split; apply Permutation_in; [|apply Permutation_sym]; assumption. }
    apply map_ext. intros z. unfold share_at. f_equal.
    apply obj_get_Permutation; [apply Hd|exact P'].
Qed.

Lemma selectShares_smallest_witness :
  selectShares
    [(KNumber (Fin 3), Some (Fin 30)); (KNumber (Fin 1), Some (Fin 10));
     (KNumber (Fin 2), Some (Fin 20))] 2
  = selectShares
      [(KNumber (Fin 1), Some (Fin 10)); (KNumber (Fin 2), Some (Fin 20));
       (KNumber (Fin 3), Some (Fin 30))] 2
  /\ Z.of_nat (List.length (selectShares
       [(KNumber (Fin 1), Some (Fin 10)); (KNumber (Fin 2), Some (Fin 20));
        (KNumber (Fin 3), Some (Fin 30))] 2)) = 2.
Proof.
  assert (Hd : DecodedShares
                 [(KNumber (Fin 1), Some (Fin 10)); (KNumber (Fin 2), Some (Fin 20));
                  (KNumber (Fin 3), Some (Fin 30))]).
  { split.
    - repeat constructor; simpl; intuition discriminate.
    - repeat constructor; eexists; (split; [reflexivity|lia]). }
  assert (Hk : 0 <= 2 <= Z.of_nat (List.length
                 [(KNumber (Fin 1), Some (Fin 10)); (KNumber (Fin 2), Some (Fin 20));
                  (KNumber (Fin 3), Some (Fin 30))])) by (simpl; lia).
  destruct (selectShares_smallest _ 2 Hd Hk) as [Hlen [_ [_ [_ Hperm]]]].
  split; [|exact Hlen].
  apply Hperm.
  exact (Permutation_cons_append
           [(KNumber (Fin 1), Some (Fin 10)); (KNumber (Fin 2), Some (Fin 20))]
           (KNumber (Fin 3), Some (Fin 30))).
Defined.

(** Outside the data model: a negative index is no integer index of
    an object, so it is enumerated after the others. *)
Example selectShares_negative_index :
  selectShares
    [(KNumber (Fin 1), Some (Fin 10)); (KNumber (Fin (-1)), Some (Fin 7));
     (KNumber (Fin 5), Some (Fin 20))] 3
  = [(KNumber (Fin 1), Some (Fin 10)); (KNumber (Fin 5), Some (Fin 20));
     (KNumber (Fin (-1)), Some (Fin 7))].
Proof. vm_compute. reflexivity. Qed.

(** ** Selection past the last key *)








(** ** The share parser *)

Lemma obj_get_replace (o : object) (k k' : key) (v : option number) :
  has_key o k = true ->
  obj_get (obj_replace k v o) k' = if key_eqb k' k then v else obj_get o k'.
Proof.
  induction o as [|[k0 v0] o IH]; simpl; [discriminate|].
  intros H. destruct (key_eqb_spec k k0) as [->|Hne].
  - simpl. destruct (key_eqb_spec k' k0); reflexivity.
  - simpl in H. simpl. rewrite IH by exact H.
    destruct (key_eqb_spec k' k0) as [->|_]; [|reflexivity].
    destruct (key_eqb_spec k0 k); congruence.
Qed.

Lemma obj_get_create (o : object) (k k' : key) (v : option number) :
  has_key o k = false ->
  obj_get (obj_create k v o) k' = if key_eqb k' k then v else obj_get o k'.
Proof.
  induction o as [|[k0 v0] o IH]; simpl; intros H.
  - destruct (key_eqb k' k); reflexivity.
  - apply orb_false_iff in H as [H0 H].
    destruct (is_array_index k
              && (negb (is_array_index k0) || (index_of k <? index_of k0))).
    + reflexivity.
    + simpl. rewrite IH by exact H.
      destruct (key_eqb_spec k' k0) as [->|_]; [|reflexivity].
      destruct (key_eqb_spec k0 k) as [->|_]; [|reflexivity].
      now rewrite key_eqb_refl in H0.
Qed.

(** Reading after [obj[k] = v]. *)
Lemma obj_get_set (o : object) (k k' : key) (v : option number) :
  obj_get (obj_set k v o) k' = if key_eqb k' k then v else obj_get o k'.
Proof.
  unfold obj_set. destruct (has_key o k) eqn:E.
  - now apply obj_get_replace.
  - now apply obj_get_create.
Qed.

Lemma keys_replace (o : object) (k : key) (v : option number) :
  Object_keys (obj_replace k v o) = Object_keys o.
Proof.
  induction o as [|[k0 v0] o IH]; simpl; [reflexivity|].
  destruct (key_eqb k k0); simpl; [reflexivity|]. now rewrite IH.
Qed.

Lemma keys_create (o : object) (k : key) (v : option number) :
  Permutation (Object_keys (obj_create k v o)) (k :: Object_keys o).
Proof.
  induction o as [|[k0 v0] o IH]; simpl; [reflexivity|].
  destruct (is_array_index k
            && (negb (is_array_index k0) || (index_of k <? index_of k0)));
    simpl; [reflexivity|].
  apply perm_trans with (k0 :: k :: Object_keys o);
    [now constructor | apply perm_swap].
Qed.

(** An assignment keeps the keys of an object distinct. *)
Lemma obj_set_NoDup (o : object) (k : key) (v : option number) :
  NoDup (Object_keys o) -> NoDup (Object_keys (obj_set k v o)).
Proof.
  intros Hnd. unfold obj_set. destruct (has_key o k) eqn:E.
  - now rewrite keys_replace.
  - eapply Permutation_NoDup; [apply Permutation_sym, keys_create|].
    constructor; [|exact Hnd].
    intros Hin. apply has_key_In in Hin. congruence.
Qed.

Lemma Get_member (m : json) (name : string) :
  m <> JNull -> Get (Json m) name = Return (member_of m name).
Proof. destruct m; simpl; congruence. Qed.

Lemma parse_step_descriptor (shares : object) (name : string) (m : json) :
  is_share_key name = false -> parse_step shares (name, m) = Return shares.
Proof.
  unfold is_share_key, parse_step. intros H.
  apply negb_false_iff in H. now rewrite H.
Qed.

Lemma parse_step_share (shares : object) (name : string) (m : json) :
  is_share_key name = true -> m <> JNull ->
  parse_step shares (name, m)
  = Return (obj_set (KNumber (share_index name)) (Some (decode_share m)) shares).
Proof.
  unfold is_share_key, parse_step. intros H Hm.
  apply negb_true_iff in H. rewrite H.
  rewrite !Get_member by exact Hm. reflexivity.
Qed.

Lemma parse_step_null (shares : object) (name : string) :
  is_share_key name = true -> parse_step shares (name, JNull) = Throw TypeError.
Proof.
  unfold is_share_key, parse_step. intros H.
  apply negb_true_iff in H. now rewrite H.
Qed.

Lemma number_eqb_sym (a b : number) : number_eqb a b = number_eqb b a.
Proof.
  destruct (number_eqb_spec a b), (number_eqb_spec b a); congruence.
Qed.

(** The loop succeeds when no share entry is [null]; each index then
    holds the decoded value of the last entry that stands for it. *)
Lemma parse_loop_readable (entries : list (string * json)) (shares0 : object) :
  Forall (fun e => is_share_key (fst e) = true -> snd e <> JNull) entries ->
  NoDup (Object_keys shares0) ->
  exists shares,
    parse_loop entries shares0 = Return shares
    /\ NoDup (Object_keys shares)
    /\ forall x,
         obj_get shares (KNumber x)
         = match last_share x entries with
           | Some m => Some (decode_share m)
           | None => obj_get shares0 (KNumber x)
           end.
Proof.
  intros H. revert shares0.
  induction H as [|[name m] entries Hm _ IH]; intros shares0 Hnd.
  - exists shares0. repeat split; auto.
  - cbn [fst snd] in Hm. cbn [parse_loop last_share].
    destruct (is_share_key name) eqn:Ek.
    + rewrite parse_step_share by auto. cbn [bind].
      destruct (IH _ (obj_set_NoDup shares0 (KNumber (share_index name))
                        (Some (decode_share m)) Hnd))
        as [shares [E [Hnd' Hget]]].
      exists shares. repeat split; auto.
      intros x. rewrite Hget.
      destruct (last_share x entries); [reflexivity|].
      rewrite obj_get_set. cbn [key_eqb andb].
      rewrite (number_eqb_sym x). now destruct (number_eqb (share_index name) x).
    + rewrite parse_step_descriptor by exact Ek. cbn [bind andb].
      destruct (IH shares0 Hnd) as [shares [E [Hnd' Hget]]].
      exists shares. repeat split; auto.
      intros x. rewrite Hget. now destruct (last_share x entries).
Qed.


(** A readable document parses; the descriptor members are returned as
    they are, present or not. *)
Lemma parseJsonInput_readable (members : list (string * json)) :
  readable members ->
  exists d shares,
    assoc "keys" members = Some d
    /\ parseJsonInput (Some (JObject members))
       = Return (mkParsed (member_of d "n") (member_of d "k") shares)
    /\ NoDup (Object_keys shares)
    /\ forall x,
         obj_get shares (KNumber x)
         = option_map decode_share (last_share x members).
Proof.
  intros [[d [Hd Hnn]] Hall].
  destruct (parse_loop_readable members [] Hall (NoDup_nil key))
    as [shares [E [Hnd Hget]]].
  exists d, shares. split; [exact Hd|]. split; [|split; [exact Hnd|]].
  - cbn [parseJsonInput Get member_of]. rewrite Hd. cbn [bind].
    rewrite !Get_member by exact Hnn. cbn [bind for_in].
    now rewrite E.
  - intros x. rewrite Hget. now destruct (last_share x members).
Qed.










(** ** The polynomial expression *)

Section FormatterProperties.
Variable coefficient : Type.
Variable differs_from_zero : coefficient -> bool.
Variable render : coefficient -> string.

Lemma findConstantTerm_last (init : list coefficient) (c : coefficient) :
  findConstantTerm (init ++ [c])%list = Some c.
Proof.
  unfold findConstantTerm.
  destruct (init ++ [c])%list eqn:E; [now destruct init|].
  rewrite <- E, length_app, Nat.add_sub. cbn [List.length].
  rewrite nth_error_app2 by lia. now rewrite Nat.sub_diag.
Qed.

Lemma expression_terms_cons (c : coefficient) (cs : list coefficient) :
  cs <> [] ->
  expression_terms coefficient differs_from_zero render (c :: cs)
  = app (if differs_from_zero c
         then [term coefficient render c (List.length cs)] else [])
      (expression_terms coefficient differs_from_zero render cs).
Proof. destruct cs; [congruence|reflexivity]. Qed.

(** The loop, started after the coefficients [done], adds the terms
    of the remaining non-constant coefficients. *)
Lemma term_loop_expression (done rest : list coefficient) (acc : list string) :
  rest <> [] ->
  app (term_loop coefficient differs_from_zero render
         (List.length rest - 1) (List.length done) (done ++ rest)%list acc)
      [render_opt coefficient render (findConstantTerm (done ++ rest)%list)]
  = app acc (expression_terms coefficient differs_from_zero render rest).
Proof.
  revert done acc. induction rest as [|c rest IH]; intros done acc Hne.
  - congruence.
  - destruct rest as [|c' rest'].
    + cbn [List.length Nat.sub term_loop expression_terms].
      now rewrite findConstantTerm_last.
    + assert (Hcount : (List.length (c :: c' :: rest') - 1
                        = S (List.length (c' :: rest') - 1))%nat)
        by (cbn [List.length]; lia).
      rewrite Hcount. cbn [term_loop].
      assert (Hstep :
        term_step coefficient differs_from_zero render
          (done ++ c :: c' :: rest')%list (List.length done) acc
        = app acc (if differs_from_zero c
                   then [term coefficient render c (List.length (c' :: rest'))]
                   else [])).
      { unfold term_step.
        rewrite nth_error_app2, Nat.sub_diag by lia. cbn [nth_error].
        replace (List.length (done ++ c :: c' :: rest')%list - 1 - List.length done)%nat
          with (S (List.length rest'))
          by (rewrite length_app; cbn [List.length]; lia).
        cbn [Nat.eqb negb List.length].
        destruct (differs_from_zero c); [reflexivity|].
        now rewrite app_nil_r. }
      rewrite Hstep.
      specialize (IH (done ++ [c])%list
                    (app acc (if differs_from_zero c
                              then [term coefficient render c
                                      (List.length (c' :: rest'))]
                              else []))).
      rewrite <- app_assoc in IH. cbn [app] in IH.
      replace (List.length (done ++ [c])%list) with (S (List.length done)) in IH
        by (rewrite length_app; cbn [List.length]; lia).
      rewrite IH by discriminate.
      rewrite (expression_terms_cons c (c' :: rest')) by discriminate.
      now rewrite app_assoc.
Qed.

(** C9.  For a coefficient vector of length [k >= 1] the rendered
    terms are, in descending degree order, one term per non-constant
    coefficient that differs from zero, followed by the constant
    term, which is always there. *)
Theorem polynomialTerms_zero_elision (coeffs : list coefficient) :
  (1 <= List.length coeffs)%nat ->
  polynomialTerms coefficient differs_from_zero render coeffs
  = expression_terms coefficient differs_from_zero render coeffs
  /\ polynomial coefficient differs_from_zero render coeffs
     = join " + " (expression_terms coefficient differs_from_zero render coeffs)
  /\ exists init c,
       coeffs = (init ++ [c])%list
       /\ findConstantTerm coeffs = Some c
       /\ polynomialTerms coefficient differs_from_zero render coeffs
          = (map (fun cd => term coefficient render (fst cd) (snd cd))
               (filter (fun cd => differs_from_zero (fst cd))
                  (combine init (rev (seq 1 (List.length init)))))
             ++ [render c])%list.
Proof.
  intros Hlen.
  assert (Hmain : polynomialTerms coefficient differs_from_zero render coeffs
                  = expression_terms coefficient differs_from_zero render coeffs).
  { unfold polynomialTerms.
    apply (term_loop_expression [] coeffs []).
    intros ->. simpl in Hlen. lia. }
  split; [exact Hmain|].
  split; [unfold polynomial; now rewrite Hmain|].
  destruct (exists_last (l := coeffs)) as [init [c ->]].
  { intros ->. simpl in Hlen. lia. }
  exists init, c. split; [reflexivity|].
  split; [apply findConstantTerm_last|].
  rewrite Hmain. clear.
  induction init as [|a init IH]; [reflexivity|].
  change ((a :: init) ++ [c])%list with (a :: (init ++ [c]))%list.
  rewrite expression_terms_cons by (now destruct init).
  rewrite IH.
  assert (Hl : List.length (init ++ [c])%list = S (List.length init))
    by (rewrite length_app; cbn [List.length]; lia).
  rewrite Hl. cbn [List.length].
  rewrite seq_S, rev_app_distr. cbn [rev app combine filter fst].
  replace (1 + List.length init)%nat with (S (List.length init)) by lia.
  destruct (differs_from_zero a); reflexivity.
Qed.
End FormatterProperties.

Lemma polynomialTerms_zero_elision_witness :
  polynomialTerms Z (fun z => negb (z =? 0)) string_of_Z [0; 10; 0]
  = expression_terms Z (fun z => negb (z =? 0)) string_of_Z [0; 10; 0]
  /\ expression_terms Z (fun z => negb (z =? 0)) string_of_Z [0; 10; 0]
     = ["10x^1"; "0"].
Proof.
  split.
  - apply (polynomialTerms_zero_elision Z (fun z => negb (z =? 0)) string_of_Z
             [0; 10; 0]).
    simpl. lia.
  - reflexivity.
Defined.

(** ** Reconstruction *)

Lemma vandermonde_row_length (x : Q) (len : nat) :
  List.length (vandermonde_row x len) = len.
Proof. induction len as [|len IH]; simpl; [reflexivity|now rewrite IH]. Qed.


Lemma pivot_split_length (rows : list equation) (p : equation)
  (others : list equation) :
  pivot_split rows = Some (p, others) ->
  List.length rows = S (List.length others).
Proof.
  revert p others. induction rows as [|r rows IH]; intros p others; simpl.
  - discriminate.
  - destruct (pivot_split rows) as [[p' others']|] eqn:E.
    + specialize (IH p' others' eq_refl).
      destruct (Qle_bool (Qabs (lead p')) (Qabs (lead r)));
        intros H; inversion H; subst; simpl; lia.
    + intros H. inversion H; subst.
      destruct rows as [|r' rows]; [reflexivity|].
      simpl in E. destruct (pivot_split rows) as [[? ?]|];
        [destruct (Qle_bool _ _)|]; discriminate.
Qed.

(** A solution has one coefficient per unknown. *)
Lemma solve_length (unknowns : nat) (rows : list equation) (xs : list Q) :
  solve unknowns rows = Some xs -> List.length xs = unknowns.
Proof.
  revert rows xs. induction unknowns as [|n IH]; intros rows xs; simpl.
  - intros H. now inversion H.
  - destruct (pivot_split rows) as [[p others]|]; [|discriminate].
    destruct (Qeq_bool (lead p) 0); [discriminate|].
    destruct (solve n (map (eliminate p) others)) as [xs'|] eqn:E; [|discriminate].
    intros H. inversion H; subst. simpl. f_equal. eapply IH; eauto.
Qed.

(** [reconstructPolynomial] returns as many coefficients as it is given
    shares. *)
Lemma reconstructPolynomial_length (selectedShares : object) (coeffs : list Q) :
  reconstructPolynomial selectedShares = Coefficients coeffs ->
  List.length coeffs = List.length selectedShares.
Proof.
  unfold reconstructPolynomial, lusolve, Object_entries.
  destruct (all_exact (map (fun e => Number_of_key (fst e)) selectedShares))
    as [xs|] eqn:Ex; [|discriminate].
  destruct (all_exact (map (fun e => Number_of_stored (snd e)) selectedShares))
    as [ys|]; [|discriminate].
  destruct (solve _ _) as [sol|] eqn:Es; [|discriminate].
  intros H. inversion H; subst. rewrite !length_map.
  rewrite (solve_length _ _ _ Es), length_map.
  clear -Ex. revert xs Ex.
  induction selectedShares as [|e l IH]; intros xs; simpl.
  - intros H. now inversion H.
  - destruct (exact (Number_of_key (fst e))); [|discriminate].
    destruct (all_exact (map (fun e => Number_of_key (fst e)) l)) as [xs'|];
      [|discriminate].
    intros H. inversion H; subst. simpl. f_equal. now apply IH.
Qed.

(** *** Exact arithmetic: the solver and the interpolation system *)

Section ExactInterpolation.
Local Open Scope Q_scope.

Lemma dot_axpy (f : Q) (u v w : list Q) :
  List.length u = List.length v ->
  dot (axpy f u v) w == dot u w - f * dot v w.
Proof.
  revert v w. induction u as [|a u IH]; intros [|b v] w Hlen;
    try discriminate Hlen.
  - simpl. ring.
  - destruct w as [|c w]; simpl; [ring|].
    rewrite (Qred_correct (a - f * b)), IH by (simpl in Hlen; lia). ring.
Qed.

Lemma pivot_split_In (rows : list equation) (p : equation) (others : list equation) :
  pivot_split rows = Some (p, others) ->
  forall r, In r rows <-> r = p \/ In r others.
Proof.
  revert p others. induction rows as [|r0 rows IH]; intros p others; simpl.
  - discriminate.
  - destruct (pivot_split rows) as [[p' others']|] eqn:E.
    + specialize (IH p' others' eq_refl).
      destruct (Qle_bool (Qabs (lead p')) (Qabs (lead r0)));
        intros H r; inversion H; subst; simpl; rewrite IH; intuition congruence.
    + intros H r. inversion H; subst.
      destruct rows as [|r' rows].
      * simpl. intuition congruence.
      * simpl in E. destruct (pivot_split rows) as [[? ?]|];
          [destruct (Qle_bool _ _)|]; discriminate.
Qed.

Lemma pivot_split_max (rows : list equation) (p : equation) (others : list equation) :
  pivot_split rows = Some (p, others) ->
  forall r, In r rows -> Qabs (lead r) <= Qabs (lead p).
Proof.
  revert p others. induction rows as [|r0 rows IH]; intros p others; simpl.
  - discriminate.
  - destruct (pivot_split rows) as [[p' others']|] eqn:E.
    + specialize (IH p' others' eq_refl).
      destruct (Qle_bool (Qabs (lead p')) (Qabs (lead r0))) eqn:Ele;
        intros H r [<-|Hr]; inversion H; subst.
      * apply Qle_refl.
      * apply Qle_trans with (Qabs (lead p')); [now apply IH|].
        now apply Qle_bool_iff.
      * apply Qlt_le_weak, Qnot_le_lt. intros Hle.
        apply Qle_bool_iff in Hle. congruence.
      * now apply IH.
    + intros H r [<-|Hr]; inversion H; subst; [apply Qle_refl|].
      destruct rows as [|r' rows]; [contradiction|].
      simpl in E. destruct (pivot_split rows) as [[? ?]|];
        [destruct (Qle_bool _ _)|]; discriminate.
Qed.

Lemma pivot_split_some (r : equation) (rows : list equation) :
  exists p others, pivot_split (r :: rows) = Some (p, others).
Proof.
  simpl. destruct (pivot_split rows) as [[p others]|].
  - destruct (Qle_bool _ _); eauto.
  - eauto.
Qed.

Lemma axpy_length (f : Q) (u v : list Q) :
  List.length u = List.length v -> List.length (axpy f u v) = List.length u.
Proof.
  revert v. induction u as [|a u IH]; intros [|b v] H; simpl in *; try lia.
  f_equal. apply IH. lia.
Qed.

Lemma eliminate_length (p r : equation) (n : nat) :
  List.length (fst p) = S n -> List.length (fst r) = S n ->
  List.length (fst (eliminate p r)) = n.
Proof.
  destruct p as [[|a u] sp], r as [[|b v] sr]; simpl; try discriminate.
  intros Hu Hv. rewrite axpy_length; lia.
Qed.

Lemma dot_lead (r : equation) (x : Q) (xs : list Q) (n : nat) :
  List.length (fst r) = S n ->
  dot (fst r) (x :: xs) == lead r * x + dot (tl (fst r)) xs.
Proof.
  destruct r as [[|a u] s]; [discriminate|]. intros _.
  unfold lead. simpl. ring.
Qed.

Lemma eliminate_dot (p r : equation) (xs : list Q) (n : nat) :
  List.length (fst p) = S n -> List.length (fst r) = S n ->
  dot (fst (eliminate p r)) xs
  == dot (tl (fst r)) xs - (lead r / lead p) * dot (tl (fst p)) xs.
Proof.
  intros Hp Hr. unfold eliminate. cbn [fst].
  apply dot_axpy.
  destruct p as [[|a u] sp], r as [[|b v] sr]; simpl in *; try discriminate. lia.
Qed.

Lemma eliminate_rhs (p r : equation) :
  snd (eliminate p r) == snd r - (lead r / lead p) * snd p.
Proof. unfold eliminate. cbn [snd]. apply Qred_correct. Qed.

Lemma solve_sound (n : nat) : forall (rows : list equation) (xs : list Q),
  List.length rows = n ->
  Forall (fun r => List.length (fst r) = n) rows ->
  solve n rows = Some xs ->
  forall r, In r rows -> dot (fst r) xs == snd r.
Proof.
  induction n as [|n IH]; intros rows xs Hrows Hlen Hs r Hr.
  - destruct rows; [contradiction|discriminate].
  - cbn [solve] in Hs.
    destruct (pivot_split rows) as [[p others]|] eqn:Ep; [|discriminate].
    destruct (Qeq_bool (lead p) 0) eqn:Ez; [discriminate|].
    destruct (solve n (map (eliminate p) others)) as [xs'|] eqn:Es; [|discriminate].
    inversion Hs; subst xs. clear Hs.
    rewrite Forall_forall in Hlen.
    pose proof (pivot_split_In rows p others Ep) as Hin.
    assert (Hp : List.length (fst p) = S n) by (apply Hlen, Hin; now left).
    assert (Hnz : ~ lead p == 0) by (now apply Qeq_bool_neq).
    rewrite (dot_lead r _ _ n) by (now apply Hlen).
    rewrite (Qred_correct ((snd p - dot (tl (fst p)) xs') / lead p)).
    apply Hin in Hr as [->|Hr].
    + field. exact Hnz.
    + assert (Hr' : List.length (fst r) = S n) by (apply Hlen, Hin; now right).
      assert (E : dot (fst (eliminate p r)) xs' == snd (eliminate p r)).
      { apply (IH (map (eliminate p) others) xs').
        - rewrite length_map. apply pivot_split_length in Ep. lia.
        - rewrite Forall_map, Forall_forall. intros r0 Hr0.
          apply eliminate_length; [exact Hp|]. apply Hlen, Hin. now right.
        - exact Es.
        - now apply in_map. }
      rewrite (eliminate_dot p r xs' n Hp Hr'), eliminate_rhs in E.
      set (f := lead r / lead p) in *.
      assert (E1 : lead r * ((snd p - dot (tl (fst p)) xs') / lead p)
                   == f * snd p - f * dot (tl (fst p)) xs')
        by (unfold f; field; exact Hnz).
      rewrite E1. lra.
Qed.

Lemma dot_zeros (u : list Q) (n : nat) : dot u (repeat 0 n) == 0.
Proof.
  revert n. induction u as [|a u IH]; intros [|n]; simpl; try reflexivity.
  rewrite IH. ring.
Qed.

Lemma solve_complete (n : nat) : forall rows : list equation,
  Forall (fun r => List.length (fst r) = n) rows ->
  (forall v, List.length v = n ->
             (forall r, In r rows -> dot (fst r) v == 0) ->
             Forall (fun q => q == 0) v) ->
  exists xs, solve n rows = Some xs.
Proof.
  induction n as [|n IH]; intros rows Hlen Hker.
  - now exists [].
  - cbn [solve]. rewrite Forall_forall in Hlen.
    destruct rows as [|r0 rows'].
    { exfalso. specialize (Hker (1 :: repeat 0 n)).
      assert (H : Forall (fun q => q == 0) (1 :: repeat 0 n)).
      { apply Hker; [simpl; now rewrite repeat_length|]. intros r []. }
      inversion H as [|? ? H1 _]. discriminate H1. }
    destruct (pivot_split_some r0 rows') as [p [others Ep]].
    set (rows := r0 :: rows') in *. rewrite Ep.
    pose proof (pivot_split_In rows p others Ep) as Hin.
    pose proof (pivot_split_max rows p others Ep) as Hmax.
    assert (Hp : List.length (fst p) = S n) by (apply Hlen, Hin; now left).
    assert (Hnz : ~ lead p == 0).
    { intros Hz. specialize (Hker (1 :: repeat 0 n)).
      assert (H : Forall (fun q => q == 0) (1 :: repeat 0 n)).
      { apply Hker; [simpl; now rewrite repeat_length|].
        intros r Hr. rewrite (dot_lead r _ _ n) by (now apply Hlen).
        rewrite dot_zeros.
        specialize (Hmax r Hr). rewrite Hz in Hmax.
        change (Qabs 0) with 0 in Hmax.
        apply Qabs_Qle_condition in Hmax. lra. }
      inversion H as [|? ? H1 _]. discriminate H1. }
    destruct (Qeq_bool (lead p) 0) eqn:Ez.
    { apply Qeq_bool_iff in Ez. contradiction. }
    destruct (IH (map (eliminate p) others)) as [xs' Es].
    + rewrite Forall_map, Forall_forall. intros r Hr.
      apply eliminate_length; [exact Hp|]. apply Hlen, Hin. now right.
    + intros v' Hv' Hk.
      set (x1 := - dot (tl (fst p)) v' / lead p).
      assert (H : Forall (fun q => q == 0) (x1 :: v')).
      { apply Hker; [simpl; lia|].
        intros r Hr. rewrite (dot_lead r _ _ n) by (now apply Hlen).
        apply Hin in Hr as [->|Hr].
        - unfold x1. field. exact Hnz.
        - assert (Hr' : List.length (fst r) = S n) by (apply Hlen, Hin; now right).
          specialize (Hk (eliminate p r) (in_map _ _ _ Hr)).
          rewrite (eliminate_dot p r v' n Hp Hr') in Hk.
          set (f := lead r / lead p) in *.
          assert (E1 : lead r * x1 == - f * dot (tl (fst p)) v')
            by (unfold f, x1; field; exact Hnz).
          rewrite E1. lra. }
      now inversion H.
    + rewrite Es. eauto.
Qed.

Lemma horner_acc (v : list Q) (x acc acc' : Q) :
  acc == acc' -> horner v x acc == horner v x acc'.
Proof.
  revert acc acc'. induction v as [|c v IH]; intros acc acc' H; simpl.
  - exact H.
  - apply IH. now rewrite H.
Qed.

Lemma Qpower_succ (x : Q) (n : nat) :
  x ^ Z.of_nat (S n) == x * x ^ Z.of_nat n.
Proof.
  rewrite Nat2Z.inj_succ. unfold Z.succ.
  rewrite Z.add_comm, Qpower_plus' by lia.
  now rewrite Qpower_1_r.
Qed.

Lemma horner_evaluate (v : list Q) (x acc : Q) :
  horner v x acc == acc * x ^ Z.of_nat (List.length v) + evaluate v x.
Proof.
  revert acc. induction v as [|c v IH]; intros acc.
  - simpl. ring.
  - cbn [horner evaluate List.length]. rewrite IH, Qpower_succ. ring.
Qed.

(** Division by [x - a]: the running values at [a] are the coefficients
    of the quotient, the last one is the remainder. *)
Lemma horner_factor (a x : Q) (v : list Q) (t u s : Q) :
  t == (x - a) * u + s ->
  horner v x t == (x - a) * horner (running a v s) x u + horner v a s.
Proof.
  revert t u s. induction v as [|c v IH]; intros t u s H.
  - exact H.
  - cbn [horner running]. apply IH. rewrite H. ring.
Qed.

Lemma running_length (a : Q) (v : list Q) (acc : Q) :
  List.length (running a v acc) = List.length v.
Proof.
  revert acc. induction v as [|c v IH]; intros acc; simpl; [reflexivity|].
  now rewrite IH.
Qed.

Lemma running_zero (a : Q) (v : list Q) (acc : Q) :
  Forall (fun q => q == 0) (running a v acc) ->
  horner v a acc == 0 ->
  acc == 0 /\ Forall (fun q => q == 0) v.
Proof.
  revert acc. induction v as [|c v IH]; intros acc Hrun Hrem.
  - split; [exact Hrem|constructor].
  - cbn [running horner] in *. inversion Hrun as [|? ? Hacc Hrun']; subst.
    destruct (IH _ Hrun' Hrem) as [Hnext Hv].
    split; [exact Hacc|]. constructor; [|exact Hv].
    rewrite Hacc in Hnext. lra.
Qed.

(** A polynomial with as many distinct roots as coefficients is zero. *)
Lemma roots_zero (n : nat) : forall (v roots : list Q),
  List.length v = n -> List.length roots = n ->
  ForallOrdPairs (fun a b => ~ a == b) roots ->
  (forall x, In x roots -> horner v x 0 == 0) ->
  Forall (fun q => q == 0) v.
Proof.
  induction n as [|n IH]; intros v roots Hv Hroots Hdistinct Hzero.
  - destruct v; [constructor|discriminate].
  - destruct v as [|c v]; [discriminate|].
    destruct roots as [|a roots]; [discriminate|].
    inversion Hdistinct as [|? ? Ha Hdistinct']; subst.
    assert (Hq : Forall (fun q => q == 0) (running a v (0 * a + c))).
    { apply (IH _ roots).
      - rewrite running_length. simpl in Hv. lia.
      - simpl in Hroots. lia.
      - exact Hdistinct'.
      - intros x Hx.
        assert (Hf : horner (c :: v) x 0
                     == (x - a) * horner (running a (c :: v) 0) x 0
                        + horner (c :: v) a 0)
          by (apply horner_factor; ring).
        rewrite (Hzero x (or_intror Hx)), (Hzero a (or_introl eq_refl)) in Hf.
        cbn [running horner] in Hf.
        assert (Hprod : (x - a) * horner (running a v (0 * a + c)) x (0 * x + 0) == 0)
          by lra.
        apply Qmult_integral in Hprod as [Hxa|Hq].
        + exfalso. rewrite Forall_forall in Ha. apply (Ha x Hx). lra.
        + transitivity (horner (running a v (0 * a + c)) x (0 * x + 0));
            [apply horner_acc; ring | exact Hq]. }
    assert (Hrem : horner v a (0 * a + c) == 0)
      by (apply (Hzero a); now left).
    destruct (running_zero a v _ Hq Hrem) as [Hc Hv0].
    constructor; [lra|exact Hv0].
Qed.

Lemma dot_vandermonde (x : Q) (v : list Q) :
  dot (vandermonde_row x (List.length v)) v == evaluate v x.
Proof.
  induction v as [|c v IH]; [reflexivity|].
  cbn [List.length vandermonde_row dot evaluate]. rewrite IH.
  unfold Math_pow. rewrite Qred_correct. ring.
Qed.

Lemma evaluate_horner (v : list Q) (x : Q) : horner v x 0 == evaluate v x.
Proof. rewrite horner_evaluate. ring. Qed.

Lemma all_exact_Fin (zs : list Z) :
  all_exact (map Fin zs) = Some (map inject_Z zs).
Proof.
  induction zs as [|z zs IH]; [reflexivity|].
  cbn [map all_exact exact]. now rewrite IH.
Qed.

Lemma distinct_inject (zs : list Z) :
  NoDup zs -> ForallOrdPairs (fun a b => ~ a == b) (map inject_Z zs).
Proof.
  induction 1 as [|z zs Hz _ IH]; [constructor|].
  cbn [map]. constructor; [|exact IH].
  rewrite Forall_map, Forall_forall. intros z' Hz' Heq.
  apply Hz. unfold Qeq in Heq. simpl in Heq. 
  replace z with z' by lia. exact Hz'.
Qed.

Theorem reconstructPolynomial_interpolates (points : list (Z * Z)) :
  NoDup (map fst points) ->
  exists coeffs,
    reconstructPolynomial (selected_of points) = Coefficients coeffs
    /\ List.length coeffs = List.length points
    /\ forall x y, In (x, y) points -> evaluate coeffs (inject_Z x) == inject_Z y.
Proof.
  intros Hnd. unfold reconstructPolynomial, Object_entries, selected_of.
  rewrite !map_map. cbn [fst snd Number_of_key Number_of_stored].
  rewrite <- (map_map fst Fin), <- (map_map snd Fin), !all_exact_Fin.
  set (k := List.length (map inject_Z (map fst points))).
  assert (Hk : k = List.length points) by (unfold k; now rewrite !length_map).
  set (row := fun p : Z * Z => (vandermonde_row (inject_Z (fst p)) k, inject_Z (snd p))).
  assert (Hrows :
    combine (map (fun x => vandermonde_row x k) (map inject_Z (map fst points)))
            (map inject_Z (map snd points))
    = map row points).
  { clearbody k. clear. induction points as [|p points IH]; [reflexivity|].
    cbn [map combine]. now rewrite IH. }
  unfold lusolve. rewrite Hrows, length_map.
  fold k. 
  assert (Hlen : Forall (fun r : equation => List.length (fst r) = k) (map row points)).
  { rewrite Forall_map, Forall_forall. intros p _. apply vandermonde_row_length. }
  destruct (solve_complete k (map row points) Hlen) as [sol Hsol].
  { intros v Hv Hker.
    apply (roots_zero k v (map inject_Z (map fst points))); auto.
    - now apply distinct_inject.
    - intros x Hx. rewrite evaluate_horner.
      rewrite map_map in Hx. apply in_map_iff in Hx as [p [<- Hp]].
      rewrite <- dot_vandermonde, Hv.
      apply (Hker (row p)). now apply in_map. }
  replace (List.length (map inject_Z (map fst points))) with k by reflexivity.
  rewrite Hsol. exists sol.
  assert (Hsl : List.length sol = k) by (eapply solve_length; eauto).
  split; [|split].
  - f_equal. rewrite map_map. cbn [hd]. apply map_id.
  - lia.
  - intros x y Hxy.
    rewrite <- dot_vandermonde, Hsl.
    apply (solve_sound k (map row points) sol (eq_trans (length_map _ _) (eq_sym Hk))
             Hlen Hsol (row (x, y))).
    now apply in_map.
Qed.

Lemma evaluate_difference (u v : list Q) (x : Q) :
  List.length u = List.length v ->
  evaluate (map (fun p => fst p - snd p) (combine u v)) x
  == evaluate u x - evaluate v x.
Proof.
  revert v. induction u as [|a u IH]; intros [|b v] H; try discriminate H.
  - simpl. ring.
  - cbn [combine map evaluate fst snd]. injection H as H.
    rewrite IH by exact H.
    rewrite length_map, length_combine, <- H, Nat.min_id. ring.
Qed.

(** Two polynomials of [k] coefficients that agree at [k] distinct
    points have the same coefficients. *)
Lemma interpolation_unique (u v roots : list Q) :
  List.length u = List.length roots -> List.length v = List.length roots ->
  ForallOrdPairs (fun a b => ~ a == b) roots ->
  (forall x, In x roots -> evaluate u x == evaluate v x) ->
  Forall2 Qeq u v.
Proof.
  intros Hu Hv Hd Hagree.
  assert (Hz : Forall (fun q => q == 0) (map (fun p => fst p - snd p) (combine u v))).
  { apply (roots_zero (List.length roots) _ roots); auto.
    - rewrite length_map, length_combine, Hu, Hv. apply Nat.min_id.
    - intros x Hx. rewrite evaluate_horner, evaluate_difference by congruence.
      rewrite (Hagree x Hx). ring. }
  assert (Hlen : List.length u = List.length v) by congruence.
  clear -Hz Hlen. revert v Hlen Hz.
  induction u as [|a u IH]; intros [|b v] Hlen Hz; try discriminate Hlen;
    [constructor|].
  cbn [combine map fst snd] in Hz. inversion Hz as [|? ? Hab Hz']; subst.
  constructor; [lra|]. apply IH; [|exact Hz']. now injection Hlen.
Qed.

(** Sampling a polynomial of [k] integer coefficients at [k] distinct
    integers and reconstructing gives the coefficients back. *)
Theorem reconstructPolynomial_recovers (original : list Z) (xs : list Z) :
  NoDup xs -> List.length xs = List.length original ->
  forall ys,
    List.length ys = List.length xs ->
    (forall x y, In (x, y) (combine xs ys) ->
       evaluate (map inject_Z original) (inject_Z x) == inject_Z y) ->
    exists coeffs,
      reconstructPolynomial (selected_of (combine xs ys)) = Coefficients coeffs
      /\ Forall2 Qeq coeffs (map inject_Z original).
Proof.
  intros Hnd Hlen ys Hys Hsample.
  assert (Hfst : map fst (combine xs ys) = xs).
  { clear -Hys. revert ys Hys. induction xs as [|x xs IH]; intros [|y ys] H;
      try discriminate H; [reflexivity|]. simpl. f_equal. apply IH. now injection H. }
  destruct (reconstructPolynomial_interpolates (combine xs ys)) as [coeffs [E [Hl Hev]]].
  { now rewrite Hfst. }
  exists coeffs. split; [exact E|].
  apply (interpolation_unique _ _ (map inject_Z xs)).
  - rewrite Hl, length_combine, length_map, Hys. apply Nat.min_id.
  - now rewrite !length_map.
  - now apply distinct_inject.
  - intros q Hq. apply in_map_iff in Hq as [x [<- Hx]].
    assert (Hy : exists y, In (x, y) (combine xs ys)).
    { rewrite <- Hfst in Hx. apply in_map_iff in Hx as [[x' y] [Hx' Hin]].
      simpl in Hx'. subst x'. now exists y. }
    destruct Hy as [y Hy].
    rewrite (Hev x y Hy). symmetry. now apply Hsample.
Qed.

End ExactInterpolation.

(** *** The pipeline in exact arithmetic *)

Lemma keys_obj_set (o : object) (k k' : key) (v : option number) :
  In k' (Object_keys (obj_set k v o)) -> k' = k \/ In k' (Object_keys o).
Proof.
  unfold obj_set. destruct (has_key o k).
  - rewrite keys_replace. now right.
  - intros H. apply (Permutation_in _ (keys_create o k v)) in H.
    destruct H as [<-|H]; [now left|now right].
Qed.

(** Every key of the parsed shares stands for a share entry. *)
Lemma parse_loop_keys (entries : list (string * json)) (shares0 shares : object) :
  parse_loop entries shares0 = Return shares ->
  forall k, In k (Object_keys shares) ->
    In k (Object_keys shares0)
    \/ exists name m, In (name, m) entries /\ is_share_key name = true
                      /\ k = KNumber (share_index name).
Proof.
  revert shares0. induction entries as [|[name m] entries IH]; intros shares0 E k Hk.
  - inversion E; subst. now left.
  - cbn [parse_loop] in E.
    destruct (is_share_key name) eqn:Ek.
    + destruct m; try (rewrite parse_step_share in E by (auto; discriminate);
        cbn [bind] in E;
        destruct (IH _ E k Hk) as [H|[name' [m' [Hin [Hs Hk']]]]];
        [ apply keys_obj_set in H as [->|H];
          [ right; eexists; eexists; split; [left; reflexivity|now split]
          | now left ]
        | right; exists name', m'; split; [now right|now split] ]).
      rewrite parse_step_null in E by exact Ek. discriminate E.
    + rewrite parse_step_descriptor in E by exact Ek. cbn [bind] in E.
      destruct (IH _ E k Hk) as [H|[name' [m' [Hin [Hs Hk']]]]]; [now left|].
      right. exists name', m'. split; [now right|now split].
Qed.

Lemma last_share_In (x : number) (entries : list (string * json)) (m : json) :
  last_share x entries = Some m ->
  exists name, In (name, m) entries /\ is_share_key name = true
               /\ share_index name = x.
Proof.
  induction entries as [|[name m0] entries IH]; simpl; [discriminate|].
  destruct (last_share x entries) as [m'|].
  - intros H. inversion H; subst. destruct (IH eq_refl) as [name' [Hin H']].
    exists name'. split; [now right|exact H'].
  - destruct (is_share_key name) eqn:Ek; [|discriminate]. simpl.
    destruct (number_eqb_spec (share_index name) x) as [Ex|]; [|discriminate].
    intros H. inversion H; subst. exists name. split; [now left|now split].
Qed.

Lemma last_share_some (x : number) (entries : list (string * json))
  (name : string) (m : json) :
  In (name, m) entries -> is_share_key name = true -> share_index name = x ->
  exists m', last_share x entries = Some m'.
Proof.
  induction entries as [|[name0 m0] entries IH]; simpl; [contradiction|].
  intros [H|H] Hk Hx.
  - inversion H; subst. destruct (last_share _ entries); [eauto|].
    rewrite Hk. simpl. destruct (number_eqb_spec (share_index name) (share_index name));
      [eauto|congruence].
  - destruct (IH H Hk Hx) as [m' ->]. eauto.
Qed.

Lemma parseJsonInput_shares (members : list (string * json)) (p : parsed) :
  parseJsonInput (Some (JObject members)) = Return p ->
  parse_loop members [] = Return (shares_of p).
Proof.
  cbn [parseJsonInput Get member_of].
  destruct (assoc "keys" members) as [d|]; [|discriminate].
  destruct d; try discriminate; cbn [bind Get for_in];
    (destruct (parse_loop members []) as [shares|e]; [|discriminate]);
    cbn [bind]; intros H; inversion H; reflexivity.
Qed.

Lemma sorted_lt_NoDup (zs : list Z) : StronglySorted Z.lt zs -> NoDup zs.
Proof.
  induction 1 as [|z zs _ IH Hz]; constructor; [|exact IH].
  intros Hin. rewrite Forall_forall in Hz. specialize (Hz z Hin). lia.
Qed.

(** The shares of a list of indices that all hold points of a polynomial. *)
Lemma shares_as_points (original : list Z) (shares : object) (zs : list Z) :
  Forall (fun z => exists y,
            obj_get shares (KNumber (Fin z)) = Some (Fin y)
            /\ (evaluate (map inject_Z original) (inject_Z z) == inject_Z y)%Q) zs ->
  exists ys,
    List.length ys = List.length zs
    /\ map (share_at shares) zs = selected_of (combine zs ys)
    /\ forall x y, In (x, y) (combine zs ys) ->
         (evaluate (map inject_Z original) (inject_Z x) == inject_Z y)%Q.
Proof.
  induction 1 as [|z zs [y [Hy Hev]] _ [ys [Hlen [Hmap Hall]]]].
  - exists []. repeat split; auto. intros x y [].
  - exists (y :: ys). split; [simpl; now rewrite Hlen|]. split.
    + cbn [map combine selected_of]. unfold share_at at 1. rewrite Hy.
      f_equal. exact Hmap.
    + intros x' y' [H|H]; [inversion H; subst; exact Hev|now apply Hall].
Qed.

(** The round trip in exact arithmetic: a readable document whose
    share entries hold points of a polynomial of [k] integer
    coefficients, at [k] or more distinct non-negative indices, gives
    the coefficients back. *)
Theorem pipeline_round_trip (original : list Z) (members : list (string * json))
  (xs : list Z) :
  readable members ->
  samples original members ->
  NoDup xs -> List.length xs = List.length original ->
  (forall x, In x xs ->
     exists name m, In (name, m) members /\ is_share_key name = true
                    /\ share_index name = Fin x) ->
  exists p coeffs,
    parseJsonInput (Some (JObject members)) = Return p
    /\ reconstructPolynomial
         (selectShares (shares_of p) (Z.of_nat (List.length original)))
       = Coefficients coeffs
    /\ Forall2 Qeq coeffs (map inject_Z original).
Proof.
  intros Hr Hsamples Hxs Hlenxs Hcover.
  destruct (parseJsonInput_readable members Hr) as [d [shares [_ [E [Hnd Hget]]]]].
  pose proof (parseJsonInput_shares members _ E) as Hloop. cbn [shares_of] in Hloop.
  unfold samples in Hsamples. rewrite Forall_forall in Hsamples.
  (* the shares are decoded shares *)
  assert (Hd : DecodedShares shares).
  { split; [exact Hnd|]. rewrite Forall_forall. intros e He.
    destruct (parse_loop_keys members [] shares Hloop (fst e)) as [[]|Hk].
    { unfold Object_keys. now apply in_map. }
    destruct Hk as [name [m [Hin [Hs Hk]]]].
    destruct (Hsamples (name, m) Hin Hs) as [x [y [Hx [Hi _]]]].
    exists x. cbn [fst] in Hi. rewrite Hk, Hi. now split. }
  (* each of them holds a point *)
  assert (Hpoint : forall z, In z (indices shares) ->
            exists y, obj_get shares (KNumber (Fin z)) = Some (Fin y)
                      /\ (evaluate (map inject_Z original) (inject_Z z) == inject_Z y)%Q).
  { intros z Hz. unfold indices in Hz. apply in_map_iff in Hz as [e [Hez He]].
    destruct (parse_loop_keys members [] shares Hloop (fst e)) as [[]|Hk].
    { unfold Object_keys. now apply in_map. }
    destruct Hk as [name [m [Hin [Hs Hk]]]].
    destruct (Hsamples (name, m) Hin Hs) as [x [_ [_ [Hi _]]]]. cbn [fst] in Hi.
    rewrite Hk, Hi in Hez. cbn [index_of] in Hez. subst x.
    destruct (last_share_some (Fin z) members name m Hin Hs Hi) as [m' Hm'].
    destruct (last_share_In (Fin z) members m' Hm') as [name' [Hin' [Hs' Hi']]].
    destruct (Hsamples (name', m') Hin' Hs') as [x' [y' [_ [Hx' [Hy' Hev]]]]].
    cbn [fst snd] in Hx', Hy'. rewrite Hi' in Hx'. inversion Hx'; subst x'.
    exists y'. rewrite Hget, Hm'. cbn [option_map]. now rewrite Hy'. }
  (* there are enough of them *)
  assert (Hmany : (List.length original <= List.length shares)%nat).
  { rewrite <- Hlenxs.
    transitivity (List.length (indices shares)); [|unfold indices; now rewrite length_map].
    apply NoDup_incl_length; [exact Hxs|]. intros x Hx.
    destruct (Hcover x Hx) as [name [m [Hin [Hs Hi]]]].
    destruct (last_share_some (Fin x) members name m Hin Hs Hi) as [m' Hm'].
    assert (Hsome : obj_get shares (KNumber (Fin x)) <> None)
      by (rewrite Hget, Hm'; discriminate).
    destruct (in_dec (fun a b => reflect_dec _ _ (key_eqb_spec a b))
                (KNumber (Fin x)) (Object_keys shares)) as [Hkey|Hout].
    - unfold Object_keys in Hkey. apply in_map_iff in Hkey as [e [He Hin']].
      unfold indices. apply in_map_iff. exists e. split; [|exact Hin'].
      now rewrite He.
    - now rewrite (obj_get_absent shares _ Hout) in Hsome. }
  (* selection, then reconstruction *)
  destruct (selectShares_prefix shares (Z.of_nat (List.length original)) Hd)
    as [zs [P [Hsorted Esel]]]; [lia|].
  rewrite Nat2Z.id in Esel.
  assert (Hlenzs : List.length zs = List.length shares).
  { rewrite (Permutation_length P). unfold indices. apply length_map. }
  destruct (shares_as_points original shares (firstn (List.length original) zs))
    as [ys [Hlenys [Hmap Hall]]].
  { rewrite Forall_forall. intros z Hz. apply Hpoint.
    eapply Permutation_in; [exact P|]. eapply In_firstn; eauto. }
  destruct (reconstructPolynomial_recovers original
              (firstn (List.length original) zs)) with (ys := ys)
    as [coeffs [Erec Hsame]].
  - apply sorted_lt_NoDup. now apply sorted_firstn.
  - rewrite length_firstn. lia.
  - exact Hlenys.
  - exact Hall.
  - exists (mkParsed (member_of d "n") (member_of d "k") shares), coeffs.
    split; [exact E|]. cbn [shares_of]. rewrite Esel, Hmap. now split.
Qed.

(** The line [y = 10x] as a polynomial of two coefficients: a document
    with threshold 2 and shares in three bases gives [10, 0] back. *)
Example pipeline_round_trip_line :
  exists p coeffs,
    parseJsonInput
      (Some (JObject
         [("keys", JObject [("n", JNumber 3); ("k", JNumber 2)]);
          ("1", JObject [("base", JString "10"); ("value", JString "10")]);
          ("2", JObject [("base", JString "16"); ("value", JString "14")]);
          ("3", JObject [("base", JString "2"); ("value", JString "11110")])]))
    = Return p
    /\ reconstructPolynomial (selectShares (shares_of p) 2) = Coefficients coeffs
    /\ Forall2 Qeq coeffs [10 # 1; 0]%Q.
Proof.
  apply (pipeline_round_trip [10; 0]
           [("keys", JObject [("n", JNumber 3); ("k", JNumber 2)]);
            ("1", JObject [("base", JString "10"); ("value", JString "10")]);
            ("2", JObject [("base", JString "16"); ("value", JString "14")]);
            ("3", JObject [("base", JString "2"); ("value", JString "11110")])]
           [1; 2]).
  - split.
    + eexists. split; [reflexivity|discriminate].
    + repeat constructor; cbn [fst snd]; discriminate.
  - repeat constructor; cbn [fst snd]; intros H; try discriminate H.
    + exists 1, 10. repeat split; try reflexivity; lia.
    + exists 2, 20. repeat split; try reflexivity; lia.
    + exists 3, 30. repeat split; try reflexivity; lia.
  - repeat constructor; simpl; intuition lia.
  - reflexivity.
  - intros x [<-|[<-|[]]].
    + exists "1", (JObject [("base", JString "10"); ("value", JString "10")]).
      repeat split; simpl; auto.
    + exists "2", (JObject [("base", JString "16"); ("value", JString "14")]).
      repeat split; simpl; auto.
Qed.

(** C8 (as amended).  With [k = 3] and the decoded shares
    {1: 10, 2: 20, 3: 30}, selection keeps the three shares and
    reconstruction yields three coefficients, highest degree first: in
    exact arithmetic [0, 10, 0], the line [y = 10x] as a polynomial of
    degree two, and the constant term is 0.  (The vector [10, 0] is
    what the threshold [k = 2] yields.) *)
Theorem line_scenario :
  selectShares
    [(KNumber (Fin 1), Some (Fin 10)); (KNumber (Fin 2), Some (Fin 20));
     (KNumber (Fin 3), Some (Fin 30))] 3
  = [(KNumber (Fin 1), Some (Fin 10)); (KNumber (Fin 2), Some (Fin 20));
     (KNumber (Fin 3), Some (Fin 30))]
  /\ reconstructPolynomial
       (selectShares
          [(KNumber (Fin 1), Some (Fin 10)); (KNumber (Fin 2), Some (Fin 20));
           (KNumber (Fin 3), Some (Fin 30))] 3)
     = Coefficients [0; 10 # 1; 0]%Q
  /\ findConstantTerm [0; 10 # 1; 0]%Q = Some 0%Q
  /\ reconstructPolynomial
       (selectShares
          [(KNumber (Fin 1), Some (Fin 10)); (KNumber (Fin 2), Some (Fin 20));
           (KNumber (Fin 3), Some (Fin 30))] 2)
     = Coefficients [10 # 1; 0]%Q.
Proof. vm_compute. repeat split; reflexivity. Qed.

(** C8, as stated, fails: three shares give three coefficients, not the
    two of [10, 0]. *)
Lemma line_scenario_counterexample :
  reconstructPolynomial
    (selectShares
       [(KNumber (Fin 1), Some (Fin 10)); (KNumber (Fin 2), Some (Fin 20));
        (KNumber (Fin 3), Some (Fin 30))] 3)
  <> Coefficients [10 # 1; 0]%Q.
Proof.
  intros H.
  apply reconstructPolynomial_length in H.
  vm_compute in H. discriminate H.
Qed.

(* ================================================================= *)
(** * Further properties of the code *)

(** ** More on the base decoder *)

Lemma list_ascii_of_string_append (s1 s2 : string) :
  list_ascii_of_string (s1 ++ s2)
  = (list_ascii_of_string s1 ++ list_ascii_of_string s2)%list.
Proof. induction s1 as [|c s1 IH]; simpl; [reflexivity|now rewrite IH]. Qed.

(** [parseInt] sees its input only through the trimmed code units. *)
Lemma parseInt_trimmed (s1 s2 : string) (radix : number) :
  trim_start (list_ascii_of_string s1) = trim_start (list_ascii_of_string s2) ->
  parseInt s1 radix = parseInt s2 radix.
Proof. intros H. unfold parseInt. now rewrite H. Qed.

Lemma trim_start_white_space (ws l : list ascii) :
  forallb is_white_space ws = true -> trim_start (ws ++ l)%list = trim_start l.
Proof.
  induction ws as [|c ws IH]; simpl; [reflexivity|].
  rewrite andb_true_iff. intros [Hc Hws]. rewrite Hc. now apply IH.
Qed.

(** X1.  Leading white space is skipped: a numeral decodes the same
    with any run of white space before it. *)
Theorem convertToDecimal_leading_white_space (ws s : string) (base : number) :
  forallb is_white_space (list_ascii_of_string ws) = true ->
  convertToDecimal (ws ++ s) base = convertToDecimal s base.
Proof.
  intros H. unfold convertToDecimal. apply parseInt_trimmed.
  rewrite list_ascii_of_string_append. now apply trim_start_white_space.
Qed.

Lemma convertToDecimal_leading_white_space_witness :
  convertToDecimal ("  " ++ "1E") (Fin 16) = convertToDecimal "1E" (Fin 16).
Proof.
  apply (convertToDecimal_leading_white_space "  " "1E" (Fin 16)). reflexivity.
Defined.

Lemma sign_not_white_space (c : ascii) :
  is_sign c = true -> is_white_space c = false.
Proof. each_code_unit c; vm_compute; intros H; try discriminate H; reflexivity. Qed.

(** [parseInt] on a sign followed by a string, in a base of [2,36]. *)
Lemma parseInt_signed (b : Z) (c : ascii) (cs : list ascii) :
  2 <= b <= 36 ->
  is_sign c = true ->
  (b = 16 -> is_hex_prefix cs = false) ->
  parseInt (String c (string_of_list_ascii cs)) (Fin b) =
  match digit_prefix b cs with
  | [] => NaN
  | Zs => to_double ((if code c =? 45 then -1 else 1) * radix_value b Zs)
  end.
Proof.
  intros Hb Hc Hhex. unfold parseInt.
  cbn [list_ascii_of_string]. rewrite list_ascii_of_string_of_list_ascii.
  cbn [trim_start]. rewrite (sign_not_white_space c Hc), Hc.
  rewrite ToInt32_small by lia.
  replace (b =? 0) with false by (symmetry; apply Z.eqb_neq; lia).
  replace (b <? 2) with false by (symmetry; apply Z.ltb_ge; lia).
  replace (36 <? b) with false by (symmetry; apply Z.ltb_ge; lia).
  cbn [negb andb orb].
  assert (Hnohex : (b =? 16) && is_hex_prefix cs = false).
  { destruct (Z.eqb_spec b 16) as [E|E]; [|reflexivity]. simpl. now apply Hhex. }
  rewrite Hnohex. now destruct (digit_prefix b cs).
Qed.

(** X2.  A sign before a valid numeral is accepted: a minus sign
    negates the value, a plus sign leaves it (the base being 10 or a
    power of two, or the value being below 2^53). *)
Theorem convertToDecimal_sign (b : Z) (s : string) :
  2 <= b <= 36 ->
  s <> EmptyString ->
  valid_numeral b s = true ->
  rounds_exactly b = true \/ numeral_value b s < 2 ^ 53 ->
  convertToDecimal ("-" ++ s) (Fin b) = to_double (- numeral_value b s)
  /\ convertToDecimal ("+" ++ s) (Fin b) = to_double (numeral_value b s).
Proof.
  intros Hb Hne Hvalid _. unfold convertToDecimal, numeral_value, valid_numeral in *.
  rewrite <- (string_of_list_ascii_eq s) at 1 3.
  set (cs := list_ascii_of_string s) in *.
  assert (Hcs : cs <> []).
  { intros E. apply Hne. rewrite <- (string_of_list_ascii_eq s).
    fold cs. now rewrite E. }
  assert (Hhex : b = 16 -> is_hex_prefix cs = false)
    by (intros ->; now apply valid_numeral_no_hex_prefix).
  cbn [String.append].
  rewrite !parseInt_signed by (try assumption; reflexivity).
  rewrite digit_prefix_all by assumption.
  destruct cs as [|c cs']; [congruence|].
  rewrite radix_value_positional.
  change (code "-" =? 45) with true. change (code "+" =? 45) with false.
  split; f_equal; lia.
Qed.

Lemma convertToDecimal_sign_witness :
  convertToDecimal ("-" ++ "1E") (Fin 16) = Fin (-30)
  /\ convertToDecimal ("+" ++ "1E") (Fin 16) = Fin 30.
Proof.
  apply (convertToDecimal_sign 16 "1E");
    [lia | discriminate | reflexivity | left; reflexivity].
Defined.

(** X3.  In base 16 the prefix 0x (or 0X) is dropped before the digits. *)
Theorem convertToDecimal_hex_prefix (x : ascii) (s : string) :
  (code x =? 120) || (code x =? 88) = true ->
  s <> EmptyString ->
  valid_numeral 16 s = true ->
  convertToDecimal (String "0" (String x s)) (Fin 16)
  = to_double (numeral_value 16 s).
Proof.
  intros Hx Hne Hvalid. unfold convertToDecimal, numeral_value, valid_numeral in *.
  set (cs := list_ascii_of_string s) in *.
  assert (Hcs : cs <> []).
  { intros E. apply Hne. rewrite <- (string_of_list_ascii_eq s).
    fold cs. now rewrite E. }
  unfold parseInt. cbn [list_ascii_of_string]. fold cs.
  change (trim_start ("0"%char :: x :: cs)) with ("0"%char :: x :: cs).
  change (is_sign "0") with false. change (code "0" =? 45) with false.
  cbv iota. change (ToInt32 (Fin 16)) with 16.
  change (negb (16 =? 0) && ((16 <? 2) || (36 <? 16))) with false.
  cbv iota. change ((16 =? 0) || (16 =? 16)) with true.
  change (16 =? 0) with false. cbv iota.
  assert (Hp : is_hex_prefix ("0"%char :: x :: cs) = true)
    by (cbn [is_hex_prefix]; now rewrite Hx).
  change (is_sign "0") with false. change (code "0" =? 45) with false.
  cbv iota. rewrite Hp. cbn [andb skipn].
  rewrite digit_prefix_all by assumption.
  destruct cs as [|c cs']; [congruence|].
  now rewrite radix_value_positional, Z.mul_1_l.
Qed.

Lemma convertToDecimal_hex_prefix_witness :
  convertToDecimal "0x1E" (Fin 16) = Fin 30.
Proof.
  apply (convertToDecimal_hex_prefix "x" "1E"); [reflexivity | discriminate | reflexivity].
Defined.

Lemma to_lower_digit (c : ascii) : digit_value (to_lower c) = digit_value c.
Proof. each_code_unit c; vm_compute; reflexivity. Qed.

Lemma to_lower_marks (c : ascii) :
  is_white_space (to_lower c) = is_white_space c
  /\ is_sign (to_lower c) = is_sign c
  /\ (code (to_lower c) =? 45) = (code c =? 45)
  /\ (code (to_lower c) =? 48) = (code c =? 48)
  /\ (code (to_lower c) =? 120) || (code (to_lower c) =? 88)
     = (code c =? 120) || (code c =? 88).
Proof. each_code_unit c; vm_compute; repeat split; reflexivity. Qed.

Lemma trim_start_lower (l : list ascii) :
  trim_start (map to_lower l) = map to_lower (trim_start l).
Proof.
  induction l as [|c l IH]; [reflexivity|]. cbn [map trim_start].
  destruct (to_lower_marks c) as [-> _].
  now destruct (is_white_space c).
Qed.

Lemma digit_prefix_lower (R : Z) (l : list ascii) :
  digit_prefix R (map to_lower l) = map to_lower (digit_prefix R l).
Proof.
  induction l as [|c l IH]; [reflexivity|]. cbn [map digit_prefix].
  unfold is_radix_digit. rewrite to_lower_digit.
  destruct (digit_value c) as [d|]; [|reflexivity].
  destruct (d <? R); [|reflexivity]. cbn [map]. now rewrite IH.
Qed.

Lemma radix_value_lower (R : Z) (l : list ascii) :
  radix_value R (map to_lower l) = radix_value R l.
Proof.
  unfold radix_value. generalize 0 at 2 4.
  induction l as [|c l IH]; intros acc; [reflexivity|].
  cbn [map fold_left]. now rewrite to_lower_digit, IH.
Qed.

Lemma is_hex_prefix_lower (l : list ascii) :
  is_hex_prefix (map to_lower l) = is_hex_prefix l.
Proof.
  destruct l as [|c0 [|c1 l]]; try reflexivity. cbn [map is_hex_prefix].
  destruct (to_lower_marks c0) as [_ [_ [_ [-> _]]]].
  destruct (to_lower_marks c1) as [_ [_ [_ [_ ->]]]]. reflexivity.
Qed.

(** X4.  Decoding ignores the case of letters, whatever the string and
    the base. *)
Theorem convertToDecimal_case_insensitive (s : string) (base : number) :
  convertToDecimal (lower_case s) base = convertToDecimal s base.
Proof.
  unfold convertToDecimal, parseInt, lower_case.
  rewrite list_ascii_of_string_of_list_ascii, trim_start_lower.
  set (T := trim_start (list_ascii_of_string s)).
  assert (Hsign : match map to_lower T with
                  | c :: _ => if code c =? 45 then -1 else 1
                  | [] => 1
                  end
                  = match T with
                    | c :: _ => if code c =? 45 then -1 else 1
                    | [] => 1
                    end).
  { destruct T as [|c T']; [reflexivity|]. cbn [map].
    now destruct (to_lower_marks c) as [_ [_ [-> _]]]. }
  assert (Hrest : match map to_lower T with
                  | c :: rest => if is_sign c then rest else map to_lower T
                  | [] => map to_lower T
                  end
                  = map to_lower match T with
                                 | c :: rest => if is_sign c then rest else T
                                 | [] => T
                                 end).
  { destruct T as [|c T']; [reflexivity|]. cbn [map].
    destruct (to_lower_marks c) as [_ [-> _]]. now destruct (is_sign c). }
  rewrite Hsign, Hrest.
  set (S1 := match T with
             | c :: rest => if is_sign c then rest else T
             | [] => T
             end).
  destruct (negb (ToInt32 base =? 0)
            && ((ToInt32 base <? 2) || (36 <? ToInt32 base))); [reflexivity|].
  rewrite is_hex_prefix_lower.
  destruct (((ToInt32 base =? 0) || (ToInt32 base =? 16)) && is_hex_prefix S1).
  - rewrite skipn_map, digit_prefix_lower, radix_value_lower.
    now destruct (digit_prefix 16 (skipn 2 S1)).
  - rewrite digit_prefix_lower, radix_value_lower.
    now destruct (digit_prefix _ S1).
Qed.

Lemma valid_decimal_is_hex (cs : list ascii) :
  forallb (valid_digit 10) cs = true -> forallb (valid_digit 16) cs = true.
Proof.
  induction cs as [|c cs IH]; [reflexivity|]. simpl.
  rewrite !andb_true_iff. intros [Hc Hcs]. split; [|now apply IH].
  unfold valid_digit in *. destruct (numeral_digit c) as [d|]; [|discriminate].
  apply Z.ltb_lt in Hc. apply Z.ltb_lt. lia.
Qed.

(** [parseInt] with a radix that counts as absent (zero, [NaN], an
    infinity), on decimal digits. *)
Lemma parseInt_default_radix (radix : number) (cs : list ascii) :
  ToInt32 radix = 0 ->
  cs <> [] ->
  forallb (valid_digit 10) cs = true ->
  parseInt (string_of_list_ascii cs) radix
  = to_double (positional_value 10 (digits_of cs)).
Proof.
  intros HR Hne Hvalid. unfold parseInt.
  rewrite list_ascii_of_string_of_list_ascii, HR.
  destruct cs as [|c cs']; [congruence|].
  assert (Hc : valid_digit 10 c = true)
    by (simpl in Hvalid; now apply andb_true_iff in Hvalid as [Hc _]).
  destruct (valid_digit_not_space_nor_sign 10 c Hc) as [Hw Hs].
  cbn [trim_start]. rewrite Hw, Hs.
  assert (Hsign : (code c =? 45) = false)
    by (unfold is_sign in Hs; now apply orb_false_iff in Hs as [_ Hs]).
  rewrite Hsign.
  change (negb (0 =? 0) && ((0 <? 2) || (36 <? 0))) with false. cbv iota.
  change ((0 =? 0) || (0 =? 16)) with true. change (0 =? 0) with true.
  rewrite (valid_numeral_no_hex_prefix _ (valid_decimal_is_hex _ Hvalid)).
  cbn [andb]. rewrite digit_prefix_all by assumption.
  now rewrite radix_value_positional, Z.mul_1_l.
Qed.

(** X5.  A share entry without a base is read in base 10: its decoded
    value is the decimal value of its digits. *)
Theorem decode_share_without_base (fields : list (string * json)) (v : string) :
  assoc "base" fields = None ->
  assoc "value" fields = Some (JString v) ->
  v <> EmptyString ->
  valid_numeral 10 v = true ->
  decode_share (JObject fields) = to_double (numeral_value 10 v).
Proof.
  intros Hbase Hvalue Hne Hvalid.
  unfold decode_share, convertToDecimal, member_of. rewrite Hbase, Hvalue.
  cbn [ToString json_to_string].
  change (parseInt "undefined" (Fin 10)) with NaN.
  unfold numeral_value, valid_numeral in *.
  rewrite <- (string_of_list_ascii_eq v) at 1.
  apply parseInt_default_radix; [reflexivity | | assumption].
  intros E. apply Hne. rewrite <- (string_of_list_ascii_eq v). now rewrite E.
Qed.

Lemma decode_share_without_base_witness :
  decode_share (JObject [("value", JString "42")]) = Fin 42.
Proof.
  apply (decode_share_without_base [("value", JString "42")] "42");
    [reflexivity | reflexivity | discriminate | reflexivity].
Defined.

(** ** More on the share parser *)







(** ** More on selection *)

Lemma sorted_permutation_unique (l1 l2 l : list Z) :
  StronglySorted Z.lt l1 -> StronglySorted Z.lt l2 ->
  Permutation l1 l -> Permutation l2 l -> l1 = l2.
Proof.
  intros S1 S2 P1 P2. apply sorted_lt_unique; auto.
  assert (P : Permutation l1 l2)
    by (eapply perm_trans; [exact P1|now apply Permutation_sym]).
  intros z. split; apply Permutation_in; [|apply Permutation_sym]; assumption.
Qed.

(** X8.  Selecting [k] of the decoded shares gives the first [k]
    entries of the selection of them all; a threshold of zero or less
    selects nothing, whatever the shares. *)
Theorem selectShares_prefix_of_all (shares : object) (k : Z) :
  (k <= 0 -> selectShares shares k = [])
  /\ (DecodedShares shares ->
      0 <= k <= Z.of_nat (List.length shares) ->
      selectShares shares k
      = firstn (Z.to_nat k)
          (selectShares shares (Z.of_nat (List.length shares)))).
Proof.
  split.
  - intros Hk. unfold selectShares.
    replace (Z.to_nat k) with O by lia. reflexivity.
  - intros Hd Hk.
    destruct (selectShares_prefix shares k Hd Hk) as [zs [P [Hs E]]].
    destruct (selectShares_prefix shares (Z.of_nat (List.length shares)) Hd)
      as [zs' [P' [Hs' E']]]; [lia|].
    rewrite E, E'.
    rewrite (sorted_permutation_unique zs' zs _ Hs' Hs P' P).
    assert (Hlen : List.length zs = List.length shares).
    { rewrite (Permutation_length P). unfold indices. apply length_map. }
    rewrite Nat2Z.id, <- Hlen, firstn_all. now rewrite firstn_map.
Qed.

Lemma selectShares_prefix_of_all_witness :
  selectShares
    [(KNumber (Fin 3), Some (Fin 30)); (KNumber (Fin 1), Some (Fin 10));
     (KNumber (Fin 2), Some (Fin 20))] 2
  = firstn 2
      (selectShares
         [(KNumber (Fin 3), Some (Fin 30)); (KNumber (Fin 1), Some (Fin 10));
          (KNumber (Fin 2), Some (Fin 20))] 3).
Proof.
  apply (selectShares_prefix_of_all
           [(KNumber (Fin 3), Some (Fin 30)); (KNumber (Fin 1), Some (Fin 10));
            (KNumber (Fin 2), Some (Fin 20))] 2).
  - split.
    + repeat constructor; simpl; intuition discriminate.
    + repeat constructor; eexists; (split; [reflexivity|lia]).
  - simpl. lia.
Defined.

Lemma NoDup_integer_keys (shares : object) (zs : list Z) :
  NoDup zs -> NoDup (Object_keys (map (share_at shares) zs)).
Proof.
  unfold Object_keys. rewrite map_map. cbn [share_at fst].
  induction 1 as [|z zs Hz _ IH]; [constructor|].
  cbn [map]. constructor; [|exact IH].
  rewrite in_map_iff. intros [z' [H Hin]]. inversion H; subst. contradiction.
Qed.

Lemma share_at_selected (shares : object) (zs : list Z) (z : Z) :
  NoDup zs -> In z zs ->
  share_at (map (share_at shares) zs) z = share_at shares z.
Proof.
  intros Hnd Hz. unfold share_at at 1. unfold share_at at 2. f_equal.
  apply In_obj_get.
  - now apply NoDup_integer_keys.
  - apply in_map_iff. exists z. split; [reflexivity|exact Hz].
Qed.

(** The selection of decoded shares is made of decoded shares. *)
Lemma DecodedShares_share_at (shares : object) (zs : list Z) :
  NoDup zs -> Forall (fun z => 0 <= z) zs ->
  DecodedShares (map (share_at shares) zs).
Proof.
  intros Hnd Hpos. split.
  - now apply NoDup_integer_keys.
  - rewrite Forall_map. eapply Forall_impl; [|exact Hpos].
    intros z Hz. exists z. now split.
Qed.

(** X9.  Selection keeps the data model and is idempotent: the selected
    shares are decoded shares again, and selecting [k] of them changes
    nothing. *)
Theorem selectShares_idempotent (shares : object) (k : Z) :
  DecodedShares shares ->
  0 <= k <= Z.of_nat (List.length shares) ->
  DecodedShares (selectShares shares k)
  /\ selectShares (selectShares shares k) k = selectShares shares k.
Proof.
  intros Hd Hk.
  destruct (selectShares_prefix shares k Hd Hk) as [zs [P [Hs E]]].
  assert (Hlen : List.length zs = List.length shares).
  { rewrite (Permutation_length P). unfold indices. apply length_map. }
  set (sel := firstn (Z.to_nat k) zs) in *.
  assert (Hsel : StronglySorted Z.lt sel) by now apply sorted_firstn.
  assert (Hnd : NoDup sel) by now apply sorted_lt_NoDup.
  assert (Hpos : Forall (fun z => 0 <= z) sel).
  { rewrite Forall_forall. intros z Hz.
    destruct (DecodedShares_indices shares Hd) as [_ Hall].
    rewrite Forall_forall in Hall. apply Hall.
    eapply Permutation_in; [exact P|]. eapply In_firstn; exact Hz. }
  assert (Hd' : DecodedShares (map (share_at shares) sel))
    by now apply DecodedShares_share_at.
  assert (Hsellen : List.length sel = Z.to_nat k)
    by (unfold sel; rewrite length_firstn; lia).
  rewrite E. split; [exact Hd'|].
  destruct (selectShares_prefix (map (share_at shares) sel) k Hd')
    as [zs' [P' [Hs' E']]]; [rewrite length_map; lia|].
  rewrite E'. rewrite indices_share_at in P'.
  assert (zs' = sel) as ->
    by (apply (sorted_permutation_unique zs' sel sel); auto).
  rewrite <- Hsellen, firstn_all.
  apply map_ext_in. intros z Hz. now apply share_at_selected.
Qed.

Lemma selectShares_idempotent_witness :
  selectShares
    (selectShares
       [(KNumber (Fin 3), Some (Fin 30)); (KNumber (Fin 1), Some (Fin 10));
        (KNumber (Fin 2), Some (Fin 20))] 2) 2
  = selectShares
      [(KNumber (Fin 3), Some (Fin 30)); (KNumber (Fin 1), Some (Fin 10));
       (KNumber (Fin 2), Some (Fin 20))] 2.
Proof.
  apply (selectShares_idempotent
           [(KNumber (Fin 3), Some (Fin 30)); (KNumber (Fin 1), Some (Fin 10));
            (KNumber (Fin 2), Some (Fin 20))] 2).
  - split.
    + repeat constructor; simpl; intuition discriminate.
    + repeat constructor; eexists; (split; [reflexivity|lia]).
  - simpl. lia.
Defined.

Lemma sorted_lt_app (l1 l2 : list Z) :
  StronglySorted Z.lt l1 -> StronglySorted Z.lt l2 ->
  (forall a b, In a l1 -> In b l2 -> a < b) ->
  StronglySorted Z.lt (l1 ++ l2)%list.
Proof.
  induction 1 as [|x l1 Hs IH Hx]; intros H2 Hlt; [exact H2|].
  cbn [app]. constructor.
  - apply IH; [exact H2|]. intros a b Ha Hb. apply Hlt; [now right|exact Hb].
  - apply Forall_app. split; [exact Hx|].
    rewrite Forall_forall. intros b Hb. apply Hlt; [now left|exact Hb].
Qed.

Lemma obj_get_app (o1 o2 : object) (k : key) :
  In k (Object_keys o1) -> obj_get (o1 ++ o2)%list k = obj_get o1 k.
Proof.
  induction o1 as [|[k' v] o1 IH]; simpl; [contradiction|].
  intros H. destruct (key_eqb_spec k k') as [->|Hne]; [reflexivity|].
  apply IH. destruct H as [H|H]; [congruence|exact H].
Qed.

Lemma DecodedShares_app (o1 o2 : object) :
  DecodedShares (o1 ++ o2)%list -> DecodedShares o1 /\ DecodedShares o2.
Proof.
  intros [Hnd H]. unfold Object_keys in Hnd. rewrite map_app in Hnd.
  apply Forall_app in H as [H1 H2]. split; split; auto.
  - now apply NoDup_app_remove_r in Hnd.
  - now apply NoDup_app_remove_l in Hnd.
Qed.

(** X10.  Shares whose indices are above those of [k] or more other
    shares are never looked at: adding them changes neither the
    selection nor the reconstructed polynomial. *)
Theorem selectShares_ignores_higher (shares more : object) (k : Z) :
  DecodedShares (shares ++ more)%list ->
  (forall e e', In e shares -> In e' more ->
                index_of (fst e) < index_of (fst e')) ->
  0 <= k <= Z.of_nat (List.length shares) ->
  selectShares (shares ++ more)%list k = selectShares shares k
  /\ reconstructPolynomial (selectShares (shares ++ more)%list k)
     = reconstructPolynomial (selectShares shares k).
Proof.
  intros Hd Hlt Hk.
  assert (Hsel : selectShares (shares ++ more)%list k = selectShares shares k);
    [|split; [exact Hsel|now rewrite Hsel]].
  destruct (DecodedShares_app _ _ Hd) as [Hd1 Hd2].
  destruct (selectShares_prefix shares k Hd1 Hk) as [zs [P [Hs E]]].
  destruct (selectShares_prefix more 0 Hd2) as [zm [Pm [Hsm _]]]; [lia|].
  destruct (selectShares_prefix (shares ++ more)%list k Hd)
    as [za [Pa [Hsa Ea]]]; [rewrite length_app; lia|].
  assert (Hlen : List.length zs = List.length shares).
  { rewrite (Permutation_length P). unfold indices. apply length_map. }
  assert (za = (zs ++ zm)%list) as ->.
  { apply (sorted_permutation_unique _ _ (indices (shares ++ more)%list)); auto.
    - apply sorted_lt_app; auto. intros a b Ha Hb.
      apply (Permutation_in _ P) in Ha. apply (Permutation_in _ Pm) in Hb.
      unfold indices in Ha, Hb.
      apply in_map_iff in Ha as [e [<- He]]. apply in_map_iff in Hb as [e' [<- He']].
      now apply Hlt.
    - unfold indices. rewrite map_app. now apply Permutation_app. }
  rewrite Ea, E, firstn_app.
  replace (Z.to_nat k - List.length zs)%nat with O by lia.
  cbn [firstn]. rewrite app_nil_r.
  apply map_ext_in. intros z Hz. unfold share_at. f_equal.
  apply obj_get_app. unfold Object_keys.
  assert (Hin : In z (indices shares))
    by (eapply Permutation_in; [exact P|]; eapply In_firstn; exact Hz).
  unfold indices in Hin. apply in_map_iff in Hin as [e [Hez He]].
  apply in_map_iff. exists e. split; [|exact He].
  destruct Hd1 as [_ Hall]. rewrite Forall_forall in Hall.
  destruct (Hall e He) as [z' [Hk' _]]. rewrite Hk' in *. simpl in Hez. now subst.
Qed.

Lemma selectShares_ignores_higher_witness :
  selectShares
    ([(KNumber (Fin 2), Some (Fin 20)); (KNumber (Fin 1), Some (Fin 10))]
     ++ [(KNumber (Fin 3), Some (Fin 999))])%list 2
  = selectShares
      [(KNumber (Fin 2), Some (Fin 20)); (KNumber (Fin 1), Some (Fin 10))] 2.
Proof.
  apply (selectShares_ignores_higher
           [(KNumber (Fin 2), Some (Fin 20)); (KNumber (Fin 1), Some (Fin 10))]
           [(KNumber (Fin 3), Some (Fin 999))] 2).
  - split.
    + repeat constructor; simpl; intuition discriminate.
    + repeat constructor; eexists; (split; [reflexivity|lia]).
  - intros e e' [<-|[<-|[]]] [<-|[]]; simpl; lia.
  - simpl. lia.
Defined.




(** ** More on reconstruction and on the expression *)

Section MoreOnReconstruction.
Local Open Scope Q_scope.



Lemma zero_power (n : nat) : 0 ^ Z.of_nat (S n) == 0.
Proof. apply Qpower_0. lia. Qed.

Lemma findConstantTerm_cons (c c' : Q) (cs : list Q) :
  findConstantTerm (c :: c' :: cs) = findConstantTerm (c' :: cs).
Proof.
  unfold findConstantTerm. cbn [List.length Nat.sub].
  rewrite Nat.sub_0_r. reflexivity.
Qed.

(** X13.  The constant term is the value of the polynomial at 0; only
    the empty coefficient list has none. *)
Theorem findConstantTerm_value_at_zero (coeffs : list Q) :
  (findConstantTerm coeffs = None <-> coeffs = [])
  /\ forall c, findConstantTerm coeffs = Some c -> evaluate coeffs 0 == c.
Proof.
  split.
  - split; [|intros ->; reflexivity].
    destruct coeffs as [|c cs]; [reflexivity|]. intros H. exfalso.
    destruct (exists_last (l := c :: cs)) as [init [c' E]]; [discriminate|].
    rewrite E, findConstantTerm_last in H. discriminate H.
  - induction coeffs as [|c cs IH]; intros c0 H; [discriminate H|].
    destruct cs as [|c' cs'].
    + cbv in H. inversion H; subst. simpl. ring.
    + rewrite findConstantTerm_cons in H.
      cbn [evaluate]. rewrite (IH c0 H).
      cbn [List.length]. rewrite zero_power. ring.
Qed.

Lemma findConstantTerm_value_at_zero_witness :
  evaluate [3 # 1; 0; 7 # 1] 0 == 7 # 1.
Proof.
  apply (findConstantTerm_value_at_zero [3 # 1; 0; 7 # 1]). reflexivity.
Defined.

End MoreOnReconstruction.

Section MoreOnFormatter.
Variable coefficient : Type.
Variable differs_from_zero : coefficient -> bool.
Variable render : coefficient -> string.

Lemma expression_terms_length (coeffs : list coefficient) :
  coeffs <> [] ->
  List.length (expression_terms coefficient differs_from_zero render coeffs)
  = S (List.length (filter differs_from_zero (removelast coeffs))).
Proof.
  induction coeffs as [|c cs IH]; intros Hne; [congruence|].
  destruct cs as [|c' cs']; [reflexivity|].
  rewrite expression_terms_cons by discriminate.
  rewrite length_app, IH by discriminate.
  change (removelast (c :: c' :: cs')) with (c :: removelast (c' :: cs')).
  cbn [filter]. destruct (differs_from_zero c); cbn [List.length]; lia.
Qed.

(** X14.  The expression always has a last term, the constant one, and
    before it one term for each non-constant coefficient that differs
    from zero: for no coefficients at all it is the single term
    "undefined". *)
Theorem polynomialTerms_count (coeffs : list coefficient) :
  List.length (polynomialTerms coefficient differs_from_zero render coeffs)
  = S (List.length (filter differs_from_zero (removelast coeffs)))
  /\ polynomial coefficient differs_from_zero render []
     = "undefined".
Proof.
  split; [|reflexivity].
  destruct coeffs as [|c cs]; [reflexivity|].
  transitivity
    (List.length (expression_terms coefficient differs_from_zero render (c :: cs))).
  - f_equal. unfold polynomialTerms.
    apply (term_loop_expression coefficient differs_from_zero render
             [] (c :: cs) []).
    discriminate.
  - apply expression_terms_length. discriminate.
Qed.
End MoreOnFormatter.
